(** * VIGIL encoder/decoder: the formula engine of [encodingService.ts]

    A shallow embedding of the class [EncodingService]
    (src/services/encodingService.ts) and of the types it reads
    (the [EncodingFormula] interface), followed by the properties of the
    encode / decode / validate / self-test operations.  The algorithm
    tables of App.tsx, the formula collection and the validation of
    context/ConfigurationContext.tsx and the passkey form of
    components/LoginPage.tsx are embedded beside it.

    Conventions of the embedding.
    - A JavaScript string is the list of its UTF-16 code units, each a [Z].
      [text.split('')] yields exactly these code units and [join('')]
      concatenates the pieces the callback returned.
    - A JavaScript number that holds an integer is a [Z]; the remainder
      operator [%] truncates towards zero and is [Z.rem].  Numbers that are
      not integers (NaN, fractions, infinities) are outside the embedding.
    - A [throw] is the [Throw] constructor of [completion]; [try]/[catch] is
      [try_catch].  Calls to [console.error] only write to the console and
      leave no trace in the returned value; they are not represented.
    - A plain object used as [Record<string, string>] is the association
      list of its own properties, in the order [Object.entries] lists them. *)

From Stdlib Require Import ZArith List String Ascii Bool Lia Permutation.
From Stdlib Require Import DecimalString.
Import ListNotations.
Local Open Scope Z_scope.

(* ===================================================================== *)
(** ** The fragment of JavaScript the service relies on *)
(* ===================================================================== *)

Module Js.

(** A UTF-16 code unit and a string of them. *)
Definition codeunit := Z.
Definition jsstring := list codeunit.

(** Character and string literals of the source, written as Rocq ones. *)
Definition charCode (a : ascii) : codeunit := Z.of_N (N_of_ascii a).
Definition js (s : string) : jsstring :=
  map charCode (list_ascii_of_string s).

(** [a === b] on strings. *)
Fixpoint str_eqb (a b : jsstring) : bool :=
  match a, b with
  | [], [] => true
  | x :: a', y :: b' => (x =? y) && str_eqb a' b'
  | _, _ => false
  end.

(** [!s] on a string: only the empty string is falsy. *)
Definition falsy (s : jsstring) : bool :=
  match s with [] => true | _ :: _ => false end.

(** [text.split('')] and [pieces.join('')]. *)
Definition split (text : jsstring) : list codeunit := text.
Definition join (pieces : list jsstring) : jsstring := List.concat pieces.

(** [String.fromCharCode(n)]: the argument is reduced to 16 bits. *)
Definition String_fromCharCode (n : Z) : jsstring := [n mod 65536].

(** [/[A-Za-z]/.test(char)], [/[0-9]/.test(char)] and
    [/[A-Za-z0-9]/.test(char)] on a one-unit string. *)
Definition is_upper (c : codeunit) : bool := (65 <=? c) && (c <=? 90).
Definition is_lower (c : codeunit) : bool := (97 <=? c) && (c <=? 122).
Definition test_letter (c : codeunit) : bool := is_upper c || is_lower c.
Definition test_digit (c : codeunit) : bool := (48 <=? c) && (c <=? 57).
Definition test_alnum (c : codeunit) : bool := test_letter c || test_digit c.

(** [arr.slice(start, end)] of [Array.prototype]: negative indices count
    from the end, both bounds are clamped to the array, and an absent [end]
    means the length. *)
Definition slice {A : Type} (arr : list A) (start : Z) (end_ : option Z)
  : list A :=
  let len := Z.of_nat (List.length arr) in
  let clamp (i : Z) := if i <? 0 then Z.max (len + i) 0 else Z.min i len in
  let k := clamp start in
  let final := match end_ with None => len | Some e => clamp e end in
  firstn (Z.to_nat (final - k)) (skipn (Z.to_nat k) arr).

(** A thrown value. *)
Inductive JsError : Type :=
| Error (message : jsstring).

(** The outcome of evaluating a call: a value or a throw. *)
Inductive completion (A : Type) : Type :=
| Normal (a : A)
| Throw (e : JsError).
Arguments Normal {A} a.
Arguments Throw {A} e.

Definition bind {A B : Type} (c : completion A) (k : A -> completion B)
  : completion B :=
  match c with
  | Normal a => k a
  | Throw e => Throw e
  end.

(** [try { body } catch (error) { handler }]. *)
Definition try_catch {A : Type} (body : completion A)
  (handler : JsError -> completion A) : completion A :=
  match body with
  | Normal a => Normal a
  | Throw e => handler e
  end.

(** A plain object with string values: its own properties in enumeration
    order.  Property keys are unique in an object. *)
Definition object := list (jsstring * jsstring).

(** [obj[key]], [undefined] being [None]. *)
Fixpoint obj_get (obj : object) (key : jsstring) : option jsstring :=
  match obj with
  | [] => None
  | (k, v) :: rest => if str_eqb k key then Some v else obj_get rest key
  end.

(** [obj[key] = v]: an existing property keeps its place, a new one is
    added last. *)
Fixpoint obj_set (obj : object) (key v : jsstring) : object :=
  match obj with
  | [] => [(key, v)]
  | (k, w) :: rest =>
      if str_eqb k key then (k, v) :: rest else (k, w) :: obj_set rest key v
  end.

(** [Object.entries(obj)] and [Object.keys(obj)]. *)
Definition Object_entries (obj : object) : list (jsstring * jsstring) := obj.
Definition Object_keys (obj : object) : list jsstring := map fst obj.

(** [x || d] where [x] may be [undefined] and is a string otherwise. *)
Definition or_string (x : option jsstring) (d : jsstring) : jsstring :=
  match x with
  | Some s => if falsy s then d else s
  | None => d
  end.

(** [x || 0] where [x] may be [undefined] and is an integer otherwise. *)
Definition or_zero (x : option Z) : Z :=
  match x with
  | Some n => if n =? 0 then 0 else n
  | None => 0
  end.

(** [x || {}] on an optional object. *)
Definition or_empty_object (x : option object) : object :=
  match x with
  | Some o => o
  | None => []
  end.

(** A function value of one string argument, as [new Function] builds it:
    a call returns a string, returns nothing ([None], for [undefined]), or
    throws. *)
Definition JsFunction := jsstring -> completion (option jsstring).

(** The host's [new Function(param, body)]: compiling the body text may
    throw, and otherwise gives a function. *)
Class JsEngine := {
  new_Function : jsstring -> jsstring -> completion JsFunction
}.

End Js.

Import Js.

Declare Scope js_scope.
Delimit Scope js_scope with js.
Notation "x <- c ;; k" := (bind c (fun x => k))
  (at level 61, c at next level, right associativity) : js_scope.

(* ===================================================================== *)
(** ** types/index.ts: the formula descriptor *)
(* ===================================================================== *)

Module Types.

(** [EncodingFormula.parameters]; every key is optional. *)
Record Parameters : Type := {
  shiftValue : option Z;
  customMapping : option object;
  digitShufflePattern : option (list Z);
  reverseOrder : option bool;
  customFunction : option jsstring
}.

(** [EncodingFormula].  The [algorithm] field is typed by the union
    [EncodingAlgorithm], which at run time is a string; [createdAt] is the
    time value of the [Date]. *)
Record EncodingFormula : Type := {
  id : jsstring;
  name : jsstring;
  algorithm : jsstring;
  parameters : Parameters;
  createdAt : Z;
  description : option jsstring
}.

End Types.

Import Types.

(* ===================================================================== *)
(** ** services/encodingService.ts *)
(* ===================================================================== *)

Module EncodingService.

(** [caesarCipher(text, shift)], the callback of its [map]. *)
Definition caesarChar (shift : Z) (char : codeunit) : jsstring :=
  if test_letter char then
    let base := if is_upper char then 65 else 97 in
    String_fromCharCode (Z.rem (char - base + shift + 26) 26 + base)
  else if test_digit char then
    String_fromCharCode (Z.rem (char - 48 + shift + 10) 10 + 48)
  else [char].

Definition caesarCipher (text : jsstring) (shift : Z) : jsstring :=
  join (map (caesarChar shift) (split text)).

(** [digitReversal(text)]: the [map] whose callback reads and advances the
    captured counter [reversedIndex].  An element of [reversed] is a match
    of one code unit, hence truthy, so [reversed[i] || char] falls back to
    [char] only past the end of the array. *)
Fixpoint digitReversal_map (reversed : list codeunit) (reversedIndex : nat)
  (chars : list codeunit) : list jsstring :=
  match chars with
  | [] => []
  | char :: rest =>
      if test_alnum char then
        match nth_error reversed reversedIndex with
        | Some r => [r]
        | None => [char]
        end :: digitReversal_map reversed (S reversedIndex) rest
      else [char] :: digitReversal_map reversed reversedIndex rest
  end.

Definition digitReversal (text : jsstring) : jsstring :=
  let alphanumeric := filter test_alnum (split text) in
  let reversed := rev alphanumeric in
  join (digitReversal_map reversed 0%nat (split text)).

(** [positionShift(text, shift)]. *)
Definition positionShift (text : jsstring) (shift : Z) : jsstring :=
  let chars := split text in
  let length := Z.of_nat (List.length chars) in
  if length <=? 1 then text
  else
    let actualShift := Z.rem (Z.rem shift length + length) length in
    join (map (fun c => [c])
            (slice chars actualShift None ++ slice chars 0 (Some actualShift))).

(** [customMapping(text, mapping)]. *)
Definition customMapping (text : jsstring) (mapping : object) : jsstring :=
  join (map (fun char => or_string (obj_get mapping [char]) [char])
          (split text)).

(** The [reduce] of [reverseCustomMapping]: the inverse object, built by
    one assignment [acc[value] = key] per entry.  It is only ever read at
    keys of one code unit. *)
Definition reverseMap (mapping : object) : object :=
  fold_left (fun acc kv => obj_set acc (snd kv) (fst kv))
    (Object_entries mapping) [].

Definition reverseCustomMapping (text : jsstring) (mapping : object)
  : jsstring :=
  join (map (fun char => or_string (obj_get (reverseMap mapping) [char]) [char])
          (split text)).

(** [customFunction(text, functionCode)], with its own [try]/[catch]. *)
Definition customFunction {engine : JsEngine} (text functionCode : jsstring)
  : completion jsstring :=
  try_catch
    (func <- new_Function (js "text") functionCode ;;
     r <- func text ;;
     Normal (or_string r text))%js
    (fun error => Normal text).

(** [reverseCustomFunction(text, functionCode)]: a placeholder. *)
Definition reverseCustomFunction (text functionCode : jsstring) : jsstring :=
  text.

(** The message of [new Error(`Unknown algorithm: ${formula.algorithm}`)]. *)
Definition unknown_algorithm (formula : EncodingFormula) : JsError :=
  Error (js "Unknown algorithm: " ++ algorithm formula).

(** [encode(value, formula)].  A formula of type [EncodingFormula] is an
    object, so of the guard [!value || !formula] only [!value] can hold. *)
Definition encode {engine : JsEngine} (value : jsstring) (formula : EncodingFormula)
  : completion jsstring :=
  if falsy value then Normal value
  else
    try_catch
      (if str_eqb (algorithm formula) (js "caesar") then
         Normal (caesarCipher value
                   (or_zero (shiftValue (parameters formula))))
       else if str_eqb (algorithm formula) (js "digit_reversal") then
         Normal (digitReversal value)
       else if str_eqb (algorithm formula) (js "position_shift") then
         Normal (positionShift value
                   (or_zero (shiftValue (parameters formula))))
       else if str_eqb (algorithm formula) (js "custom_mapping") then
         Normal (customMapping value
                   (or_empty_object (Types.customMapping (parameters formula))))
       else if str_eqb (algorithm formula) (js "custom") then
         customFunction value
           (or_string (Types.customFunction (parameters formula)) [])
       else Throw (unknown_algorithm formula))
      (fun error => Normal value).

(** [decode(encodedValue, formula)]. *)
Definition decode {engine : JsEngine} (encodedValue : jsstring)
  (formula : EncodingFormula) : completion jsstring :=
  if falsy encodedValue then Normal encodedValue
  else
    try_catch
      (if str_eqb (algorithm formula) (js "caesar") then
         Normal (caesarCipher encodedValue
                   (- or_zero (shiftValue (parameters formula))))
       else if str_eqb (algorithm formula) (js "digit_reversal") then
         Normal (digitReversal encodedValue)
       else if str_eqb (algorithm formula) (js "position_shift") then
         Normal (positionShift encodedValue
                   (- or_zero (shiftValue (parameters formula))))
       else if str_eqb (algorithm formula) (js "custom_mapping") then
         Normal (reverseCustomMapping encodedValue
                   (or_empty_object (Types.customMapping (parameters formula))))
       else if str_eqb (algorithm formula) (js "custom") then
         Normal (reverseCustomFunction encodedValue
                   (or_string (Types.customFunction (parameters formula)) []))
       else Throw (unknown_algorithm formula))
      (fun error => Normal encodedValue).

(** The result of [validateFormula]. *)
Record Validation : Type := {
  isValid : bool;
  errors : list jsstring
}.

(** [errors.push(msg)] under the condition [cond]. *)
Definition push_if (cond : bool) (msg : string) (errors : list jsstring)
  : list jsstring :=
  if cond then errors ++ [js msg] else errors.

(** [typeof x !== 'number'] on an optional integer. *)
Definition not_a_number (x : option Z) : bool :=
  match x with Some _ => false | None => true end.

(** [!m || Object.keys(m).length === 0]. *)
Definition no_mapping (m : option object) : bool :=
  match m with
  | None => true
  | Some o => (List.length (Object_keys o) =? 0)%nat
  end.

(** [!s] on an optional string. *)
Definition no_string (s : option jsstring) : bool :=
  match s with
  | None => true
  | Some t => falsy t
  end.

(** [validateFormula(formula)]. *)
Definition validateFormula (formula : EncodingFormula) : Validation :=
  let errors0 : list jsstring := [] in
  let errors1 := push_if (falsy (id formula)) "Formula ID is required" errors0 in
  let errors2 :=
    push_if (falsy (name formula)) "Formula name is required" errors1 in
  let errors3 :=
    push_if (falsy (algorithm formula)) "Algorithm is required" errors2 in
  let p := parameters formula in
  let errors4 :=
    if str_eqb (algorithm formula) (js "caesar") then
      push_if (not_a_number (shiftValue p))
        "Caesar cipher requires a numeric shift value" errors3
    else if str_eqb (algorithm formula) (js "position_shift") then
      push_if (not_a_number (shiftValue p))
        "Position shift requires a numeric shift value" errors3
    else if str_eqb (algorithm formula) (js "custom_mapping") then
      push_if (no_mapping (Types.customMapping p))
        "Custom mapping requires at least one character mapping" errors3
    else if str_eqb (algorithm formula) (js "custom") then
      push_if (no_string (Types.customFunction p))
        "Custom algorithm requires function code" errors3
    else errors3 in
  {| isValid := (List.length errors4 =? 0)%nat; errors := errors4 |}.

(** The result of [testFormula]. *)
Record TestResult : Type := {
  original : jsstring;
  encoded : jsstring;
  decoded : jsstring;
  isReversible : bool
}.

(** [testFormula(formula, testValue = 'ABC123XYZ')]; an omitted argument is
    [None]. *)
Definition testFormula {engine : JsEngine} (formula : EncodingFormula)
  (testValue : option jsstring) : completion TestResult :=
  let testValue :=
    match testValue with Some v => v | None => js "ABC123XYZ" end in
  (encoded <- encode testValue formula ;;
   decoded <- decode encoded formula ;;
   Normal {| original := testValue;
             encoded := encoded;
             decoded := decoded;
             isReversible := str_eqb testValue decoded |})%js.

End EncodingService.

Import EncodingService.

(* ===================================================================== *)
(** ** Arrays with holes *)
(* ===================================================================== *)

Module JsArray.

(** An array of strings as [new Array(n)] and indexed assignment build it:
    [None] is a hole or [undefined], which [join] both print as the empty
    string. *)
Definition jsarray := list (option jsstring).

(** [new Array(n)]. *)
Definition new_Array (n : nat) : jsarray := repeat None n.

(** The integers that are array indices; any other key names a plain
    property, which [join] does not see. *)
Definition is_array_index (i : Z) : bool := (0 <=? i) && (i <? 4294967295).

(** Writing element [k]: inside the array the element is replaced, beyond
    its end the array grows, with holes in between. *)
Fixpoint set_nth (arr : jsarray) (k : nat) (v : option jsstring) : jsarray :=
  match arr, k with
  | [], O => [v]
  | [], S k' => None :: set_nth [] k' v
  | _ :: rest, O => v :: rest
  | x :: rest, S k' => x :: set_nth rest k' v
  end.

(** [arr[i] = v] for an integer [i]. *)
Definition array_set (arr : jsarray) (i : Z) (v : option jsstring)
  : jsarray :=
  if is_array_index i then set_nth arr (Z.to_nat i) v else arr.

(** [arr[j]] for an index [j]. *)
Definition array_get (arr : jsarray) (j : nat) : option jsstring :=
  nth j arr None.

(** [arr.join('')]. *)
Definition array_join (arr : jsarray) : jsstring :=
  List.concat
    (map (fun o => match o with Some s => s | None => [] end) arr).

(** [chars[i]] for an array of one-unit strings and an integer [i]. *)
Definition char_at (chars : list codeunit) (i : Z) : option jsstring :=
  if i <? 0 then None
  else option_map (fun c => [c]) (nth_error chars (Z.to_nat i)).

(** [Object.fromEntries(entries)]: one property per entry, a later entry
    with the same key overriding. *)
Definition Object_fromEntries (entries : list (jsstring * jsstring))
  : object :=
  fold_left (fun acc kv => obj_set acc (fst kv) (snd kv)) entries [].

End JsArray.

Import JsArray.

(* ===================================================================== *)
(** ** App.tsx: the algorithm tables of the single-file application *)
(* ===================================================================== *)

Module App.

(** [const encodingAlgorithms = { caesar, reverse, position, custom }]. *)
Module encodingAlgorithms.

(** The callback of [caesar]; the base is chosen by [char <= 'Z']. *)
Definition caesarChar (shift : Z) (char : codeunit) : jsstring :=
  if test_letter char then
    let base := if char <=? 90 then 65 else 97 in
    String_fromCharCode (Z.rem (char - base + shift) 26 + base)
  else if test_digit char then
    String_fromCharCode (Z.rem (char - 48 + shift) 10 + 48)
  else [char].

Definition caesar (value : jsstring) (shift : Z) : jsstring :=
  join (map (caesarChar shift) (split value)).

Definition reverse (value : jsstring) : jsstring :=
  join (map (fun c => [c]) (rev (split value))).

Definition position (value : jsstring) (positions : list Z) : jsstring :=
  let chars := split value in
  join (map (fun pos => or_string (char_at chars pos) []) positions).

Definition custom (value : jsstring) (mapping : object) : jsstring :=
  join (map (fun char => or_string (obj_get mapping [char]) [char])
          (split value)).

End encodingAlgorithms.

(** [const decodingAlgorithms = { caesar, reverse, position, custom }]. *)
Module decodingAlgorithms.

Definition caesar (value : jsstring) (shift : Z) : jsstring :=
  encodingAlgorithms.caesar value (- shift).

Definition reverse (value : jsstring) : jsstring :=
  encodingAlgorithms.reverse value.

(** The [forEach] of [position]: [result[pos] = chars[i]] for the [i]-th
    position [pos]. *)
Fixpoint position_forEach (chars : list codeunit) (positions : list Z)
  (i : nat) (result : jsarray) : jsarray :=
  match positions with
  | [] => result
  | pos :: rest =>
      position_forEach chars rest (S i)
        (array_set result pos (char_at chars (Z.of_nat i)))
  end.

Definition position (value : jsstring) (positions : list Z) : jsstring :=
  let chars := split value in
  let result := new_Array (List.length positions) in
  array_join (position_forEach chars positions 0%nat result).

Definition custom (value : jsstring) (mapping : object) : jsstring :=
  let reverseMapping :=
    Object_fromEntries
      (map (fun kv => (snd kv, fst kv)) (Object_entries mapping)) in
  join (map (fun char => or_string (obj_get reverseMapping [char]) [char])
          (split value)).

End decodingAlgorithms.

End App.

(** The positions lie inside a string of [n] characters and reach every
    one of them. *)
Definition covers (positions : list Z) (n : nat) : Prop :=
  Forall (fun p => 0 <= p < Z.of_nat n) positions /\
  forall j, (j < n)%nat -> In (Z.of_nat j) positions.

(** The position is inside a string of [n] characters. *)
Definition inside (n : nat) (pos : Z) : bool :=
  (0 <=? pos) && (pos <? Z.of_nat n).

(* ===================================================================== *)
(** ** types/index.ts, continued: the application configuration *)
(* ===================================================================== *)

Module ConfigurationTypes.

Record Credentials : Type := {
  username : option jsstring;
  password : option jsstring;
  host : option jsstring;
  port : option Z;
  database : option jsstring
}.

(** [DatabaseConfig]; [type] is the tag of [DatabaseType]. *)
Record DatabaseConfig : Type := {
  type : jsstring;
  connectionString : jsstring;
  tableName : jsstring;
  credentials : option Credentials
}.

Record FirestoreConfig : Type := {
  collectionName : jsstring;
  customToken : jsstring;
  projectId : option jsstring
}.

Record ColumnMapping : Type := {
  sourceColumn : jsstring;
  destinationField : jsstring;
  shouldEncode : bool;
  dataType : jsstring
}.

(** [AppConfiguration]; the two dates are their time values. *)
Record AppConfiguration : Type := {
  id : jsstring;
  name : jsstring;
  sourceDatabase : DatabaseConfig;
  destinationFirestore : FirestoreConfig;
  encodingFormula : EncodingFormula;
  columnMappings : list ColumnMapping;
  processingInterval : Z;
  batchSize : Z;
  timestampColumn : jsstring;
  isActive : bool;
  createdAt : Z;
  lastModified : Z
}.

Record ValidationResult : Type := {
  isValid : bool;
  errors : list jsstring;
  warnings : list jsstring
}.

End ConfigurationTypes.

(* ===================================================================== *)
(** ** context/ConfigurationContext.tsx *)
(* ===================================================================== *)

Module ConfigurationContext.

Import ConfigurationTypes.

(** The code units [String.prototype.trim] strips: the white space and
    line terminator characters of the language. *)
Definition is_whitespace (c : codeunit) : bool :=
  ((9 <=? c) && (c <=? 13)) || (c =? 32) || (c =? 160) || (c =? 5760)
  || ((8192 <=? c) && (c <=? 8202)) || (c =? 8232) || (c =? 8233)
  || (c =? 8239) || (c =? 8287) || (c =? 12288) || (c =? 65279).

Fixpoint trimStart (s : jsstring) : jsstring :=
  match s with
  | [] => []
  | c :: rest => if is_whitespace c then trimStart rest else s
  end.

(** [s.trim()]. *)
Definition trim (s : jsstring) : jsstring :=
  rev (trimStart (rev (trimStart s))).

(** [String(n)] for a natural number: its decimal digits. *)
Definition decimal (n : nat) : jsstring :=
  js (NilEmpty.string_of_uint (Nat.to_uint n)).

(** The [forEach] over the column mappings of [validateConfiguration],
    [index] being the index of the first mapping of the list. *)
Fixpoint mapping_errors (mappings : list ColumnMapping) (index : nat)
  (errors : list jsstring) : list jsstring :=
  match mappings with
  | [] => errors
  | mapping :: rest =>
      let errors1 :=
        if falsy (trim (sourceColumn mapping))
        then errors ++ [js "Column mapping " ++ decimal (index + 1)
                          ++ js ": Source column is required"]
        else errors in
      let errors2 :=
        if falsy (trim (destinationField mapping))
        then errors1 ++ [js "Column mapping " ++ decimal (index + 1)
                           ++ js ": Destination field is required"]
        else errors1 in
      mapping_errors rest (S index) errors2
  end.

(** [validateConfiguration(config)]: the value its promise resolves to.
    For a configuration of type [AppConfiguration] no step of the [try]
    block throws, so the [catch] branch is not reached. *)
Definition validateConfiguration (config : AppConfiguration)
  : ValidationResult :=
  let errors0 : list jsstring := [] in
  let warnings0 : list jsstring := [] in
  let errors1 :=
    push_if (falsy (trim (name config)))
      "Configuration name is required" errors0 in
  let errors2 :=
    push_if (falsy (trim (connectionString (sourceDatabase config))))
      "Source database connection string is required" errors1 in
  let errors3 :=
    push_if (falsy (trim (tableName (sourceDatabase config))))
      "Source table name is required" errors2 in
  let errors4 :=
    push_if (falsy (trim (collectionName (destinationFirestore config))))
      "Destination collection name is required" errors3 in
  let errors5 :=
    push_if (falsy (trim (customToken (destinationFirestore config))))
      "Firestore custom token is required" errors4 in
  let errors6 :=
    push_if (falsy (Types.id (encodingFormula config)))
      "Encoding formula must be selected" errors5 in
  let errors7 :=
    push_if (List.length (columnMappings config) =? 0)%nat
      "At least one column mapping is required" errors6 in
  let warnings1 :=
    push_if (processingInterval config <? 30)
      "Processing interval less than 30 seconds may impact performance"
      warnings0 in
  let errors8 := mapping_errors (columnMappings config) 0%nat errors7 in
  let hasEncodedColumn := existsb shouldEncode (columnMappings config) in
  let warnings2 :=
    push_if (negb hasEncodedColumn)
      "No columns are marked for encoding - data will only be copied"
      warnings1 in
  {| isValid := (List.length errors8 =? 0)%nat;
     errors := errors8;
     warnings := warnings2 |}.

(** [getEncodingFormula(formulaId)], reading the state [savedFormulas]. *)
Definition getEncodingFormula (savedFormulas : list EncodingFormula)
  (formulaId : jsstring) : option EncodingFormula :=
  find (fun formula => str_eqb (Types.id formula) formulaId) savedFormulas.

(** [saveEncodingFormula(formula)]: the list [updatedFormulas] that becomes
    the state [savedFormulas] and is written to the storage. *)
Definition saveEncodingFormula (savedFormulas : list EncodingFormula)
  (formula : EncodingFormula) : list EncodingFormula :=
  savedFormulas ++ [formula].

(** [deleteEncodingFormula(formulaId)]: the list [updatedFormulas]. *)
Definition deleteEncodingFormula (savedFormulas : list EncodingFormula)
  (formulaId : jsstring) : list EncodingFormula :=
  filter (fun formula => negb (str_eqb (Types.id formula) formulaId))
    savedFormulas.

(** The history [saveConfiguration] stores:
    [[...configHistory, historyEntry].slice(-10)]. *)
Definition updatedHistory {A : Type} (configHistory : list A)
  (historyEntry : A) : list A :=
  slice (configHistory ++ [historyEntry]) (-10) None.

End ConfigurationContext.

(* ===================================================================== *)
(** ** components/LoginPage.tsx *)
(* ===================================================================== *)

Module LoginPage.

(** The state variables of the component. *)
Record State : Type := {
  passkey : jsstring;
  showPasskey : bool;
  error : jsstring;
  isChangingPasskey : bool;
  newPasskey : jsstring;
  confirmPasskey : jsstring;
  isFirstTime : bool
}.

(** The component in its surroundings: its state, the browser's
    [localStorage] (string keys and values) and the arguments the
    callback [onLogin] has been called with, oldest first. *)
Record World : Type := {
  state : State;
  localStorage : object;
  onLogin : list bool
}.

(** The initial values given to [useState]. *)
Definition initialState : State :=
  {| passkey := []; showPasskey := false; error := [];
     isChangingPasskey := false; newPasskey := []; confirmPasskey := [];
     isFirstTime := false |}.

(** The effect that runs once after the first render. *)
Definition mount (storage : object) : World :=
  let storedPasskey := obj_get storage (js "encoder_passkey") in
  let st :=
    if no_string storedPasskey
    then {| passkey := passkey initialState;
            showPasskey := showPasskey initialState;
            error := error initialState;
            isChangingPasskey := true;
            newPasskey := newPasskey initialState;
            confirmPasskey := confirmPasskey initialState;
            isFirstTime := true |}
    else initialState in
  {| state := st; localStorage := storage; onLogin := [] |}.

(** [handleLogin]. *)
Definition handleLogin (w : World) : World :=
  let st := state w in
  let storedPasskey := obj_get (localStorage w) (js "encoder_passkey") in
  let equal :=
    match storedPasskey with
    | Some stored => str_eqb (passkey st) stored
    | None => false
    end in
  if equal then
    {| state := {| passkey := passkey st;
                   showPasskey := showPasskey st;
                   error := [];
                   isChangingPasskey := isChangingPasskey st;
                   newPasskey := newPasskey st;
                   confirmPasskey := confirmPasskey st;
                   isFirstTime := isFirstTime st |};
       localStorage := localStorage w;
       onLogin := onLogin w ++ [true] |}
  else
    {| state := {| passkey := [];
                   showPasskey := showPasskey st;
                   error := js "Invalid passkey. Please try again.";
                   isChangingPasskey := isChangingPasskey st;
                   newPasskey := newPasskey st;
                   confirmPasskey := confirmPasskey st;
                   isFirstTime := isFirstTime st |};
       localStorage := localStorage w;
       onLogin := onLogin w |}.

Definition with_error (st : State) (msg : jsstring) : State :=
  {| passkey := passkey st;
     showPasskey := showPasskey st;
     error := msg;
     isChangingPasskey := isChangingPasskey st;
     newPasskey := newPasskey st;
     confirmPasskey := confirmPasskey st;
     isFirstTime := isFirstTime st |}.

(** [handlePasskeyChange]; [now] is [new Date().toISOString()].  The test
    [if (isFirstTime)] reads the value of the render the handler belongs
    to, not the one just set. *)
Definition handlePasskeyChange (now : jsstring) (w : World) : World :=
  let st := state w in
  if (List.length (newPasskey st) <? 6)%nat then
    {| state :=
         with_error st (js "Passkey must be at least 6 characters long.");
       localStorage := localStorage w;
       onLogin := onLogin w |}
  else if negb (str_eqb (newPasskey st) (confirmPasskey st)) then
    {| state :=
         with_error st (js "Passkeys do not match. Please try again.");
       localStorage := localStorage w;
       onLogin := onLogin w |}
  else
    let storage1 :=
      obj_set (localStorage w) (js "encoder_passkey") (newPasskey st) in
    let storage2 := obj_set storage1 (js "encoder_passkey_changed") now in
    {| state :=
         {| passkey := passkey st;
            showPasskey := showPasskey st;
            error :=
              if isFirstTime st then []
              else js "Passkey updated successfully. Please login with your new passkey.";
            isChangingPasskey := false;
            newPasskey := [];
            confirmPasskey := [];
            isFirstTime := false |};
       localStorage := storage2;
       onLogin := if isFirstTime st then onLogin w ++ [true] else onLogin w |}.

(** What the user can do with the rendered form. *)
Inductive Event : Type :=
| TypePasskey (value : jsstring)
| TypeNewPasskey (value : jsstring)
| TypeConfirmPasskey (value : jsstring)
| ToggleVisibility
| ClickChangePasskey
| ClickCancel
| SubmitLogin
| SubmitPasskeyChange (now : jsstring).

Definition with_state (w : World) (st : State) : World :=
  {| state := st; localStorage := localStorage w; onLogin := onLogin w |}.

(** One event.  The passkey-change form is rendered when
    [isChangingPasskey] holds and the login form otherwise; the Cancel
    button is rendered in the former unless [isFirstTime] holds.  An event
    on a control that is not rendered cannot occur and leaves the world as
    it is.  The browser's own checks of the [required] and [minLength]
    attributes can only withhold a submission; they are not represented. *)
Definition step (w : World) (e : Event) : World :=
  let st := state w in
  match e with
  | TypePasskey value =>
      if isChangingPasskey st then w
      else with_state w
             {| passkey := value; showPasskey := showPasskey st;
                error := error st;
                isChangingPasskey := isChangingPasskey st;
                newPasskey := newPasskey st;
                confirmPasskey := confirmPasskey st;
                isFirstTime := isFirstTime st |}
  | TypeNewPasskey value =>
      if isChangingPasskey st then
        with_state w
          {| passkey := passkey st; showPasskey := showPasskey st;
             error := error st;
             isChangingPasskey := isChangingPasskey st;
             newPasskey := value;
             confirmPasskey := confirmPasskey st;
             isFirstTime := isFirstTime st |}
      else w
  | TypeConfirmPasskey value =>
      if isChangingPasskey st then
        with_state w
          {| passkey := passkey st; showPasskey := showPasskey st;
             error := error st;
             isChangingPasskey := isChangingPasskey st;
             newPasskey := newPasskey st;
             confirmPasskey := value;
             isFirstTime := isFirstTime st |}
      else w
  | ToggleVisibility =>
      with_state w
        {| passkey := passkey st; showPasskey := negb (showPasskey st);
           error := error st;
           isChangingPasskey := isChangingPasskey st;
           newPasskey := newPasskey st;
           confirmPasskey := confirmPasskey st;
           isFirstTime := isFirstTime st |}
  | ClickChangePasskey =>
      if isChangingPasskey st then w
      else with_state w
             {| passkey := passkey st; showPasskey := showPasskey st;
                error := error st;
                isChangingPasskey := true;
                newPasskey := newPasskey st;
                confirmPasskey := confirmPasskey st;
                isFirstTime := isFirstTime st |}
  | ClickCancel =>
      if isChangingPasskey st && negb (isFirstTime st) then
        with_state w
          {| passkey := passkey st; showPasskey := showPasskey st;
             error := [];
             isChangingPasskey := false;
             newPasskey := [];
             confirmPasskey := [];
             isFirstTime := isFirstTime st |}
      else w
  | SubmitLogin =>
      if isChangingPasskey st then w else handleLogin w
  | SubmitPasskeyChange now =>
      if isChangingPasskey st then handlePasskeyChange now w else w
  end.

(** A sequence of events. *)
Definition run (w : World) (events : list Event) : World :=
  fold_left step events w.

(** The events that set a new passkey and log in with it. *)
Definition takeover (p now : jsstring) : list Event :=
  [ClickChangePasskey; TypeNewPasskey p; TypeConfirmPasskey p;
   SubmitPasskeyChange now; TypePasskey p; SubmitLogin].

(** The event is not the submission of the passkey-change form. *)
Definition no_passkey_change (e : Event) : bool :=
  match e with SubmitPasskeyChange _ => false | _ => true end.

End LoginPage.

(** The string consists of white space only. *)
Definition blank (s : jsstring) : bool :=
  forallb ConfigurationContext.is_whitespace s.

(** What [validateConfiguration] asks of a configuration. *)
Definition complete_configuration
  (config : ConfigurationTypes.AppConfiguration) : Prop :=
  blank (ConfigurationTypes.name config) = false /\
  blank (ConfigurationTypes.connectionString
           (ConfigurationTypes.sourceDatabase config)) = false /\
  blank (ConfigurationTypes.tableName
           (ConfigurationTypes.sourceDatabase config)) = false /\
  blank (ConfigurationTypes.collectionName
           (ConfigurationTypes.destinationFirestore config)) = false /\
  blank (ConfigurationTypes.customToken
           (ConfigurationTypes.destinationFirestore config)) = false /\
  Types.id (ConfigurationTypes.encodingFormula config) <> [] /\
  ConfigurationTypes.columnMappings config <> [] /\
  Forall (fun m => blank (ConfigurationTypes.sourceColumn m) = false /\
                   blank (ConfigurationTypes.destinationField m) = false)
    (ConfigurationTypes.columnMappings config).

(* ===================================================================== *)
(** ** Sample data used by the examples *)
(* ===================================================================== *)

(** A host that refuses every function body, as an engine would under a
    policy forbidding dynamic code. *)
Definition strict_engine : JsEngine :=
  {| new_Function := fun _ _ => Throw (Error (js "EvalError")) |}.

(** A host that compiles one function body, [return 'Z';], and refuses
    the rest. *)
Definition tiny_engine : JsEngine :=
  {| new_Function := fun _ body =>
       if str_eqb body (js "return 'Z';")
       then Normal (fun _ => Normal (Some (js "Z")))
       else Throw (Error (js "SyntaxError")) |}.

(** A [custom] formula with the given function body. *)
Definition custom_formula (body : string) : EncodingFormula :=
  {| id := js "f2";
     name := js "custom sample";
     algorithm := js "custom";
     parameters := {| shiftValue := None;
                      Types.customMapping := None;
                      digitShufflePattern := None;
                      reverseOrder := None;
                      Types.customFunction := Some (js body) |};
     createdAt := 0;
     description := None |}.

(** A formula with the given tag, shift and mapping, other keys absent. *)
Definition formula_of (tag : string) (shift : option Z)
  (mapping : option object) : EncodingFormula :=
  {| id := js "f1";
     name := js "sample";
     algorithm := js tag;
     parameters := {| shiftValue := shift;
                      Types.customMapping := mapping;
                      digitShufflePattern := None;
                      reverseOrder := None;
                      Types.customFunction := None |};
     createdAt := 0;
     description := None |}.

(** The formula [{id:'', name:'', algorithm:'caesar', parameters:{}}]. *)
Definition blank_caesar : EncodingFormula :=
  {| id := [];
     name := [];
     algorithm := js "caesar";
     parameters := {| shiftValue := None;
                      Types.customMapping := None;
                      digitShufflePattern := None;
                      reverseOrder := None;
                      Types.customFunction := None |};
     createdAt := 0;
     description := None |}.

(** The mapping [{a: 'b', c: 'b'}]. *)
Definition ambiguous_mapping : object :=
  [(js "a", js "b"); (js "c", js "b")].

(** The substitutions that [{a: 'b', c: 'b'}] and its inverse object
    [{b: 'c'}] perform on a character. *)
Definition ambiguous_forward (ch : codeunit) : codeunit :=
  if ch =? 97 then 98 else if ch =? 99 then 98 else ch.

Definition ambiguous_backward (ch : codeunit) : codeunit :=
  if ch =? 98 then 99 else ch.

(** The tags of [EncodingAlgorithm]. *)
Definition known_tags : list jsstring :=
  [js "caesar"; js "digit_reversal"; js "position_shift";
   js "custom_mapping"; js "custom"].

(** Left circular rotation by [s]: the part from offset [s] on, followed by
    the part before offset [s]. *)
Definition rotate_left {A : Type} (s : nat) (l : list A) : list A :=
  skipn s l ++ firstn s l.

(** Refilling the alphanumeric positions of [chars], left to right, from
    the supply [rs]; a position is left as it is once the supply is used
    up.  This is what the [map] of [digitReversal] computes, with the
    counter replaced by the remaining supply. *)
Fixpoint refill (chars rs : list codeunit) : list codeunit :=
  match chars with
  | [] => []
  | c :: t =>
      if test_alnum c then
        match rs with
        | r :: rs' => r :: refill t rs'
        | [] => c :: refill t []
        end
      else c :: refill t rs
  end.

(** Two characters of the same class: both capitals, both small letters,
    both digits, or the same character outside these classes. *)
Definition same_class (c d : codeunit) : Prop :=
  is_upper d = is_upper c /\ is_lower d = is_lower c /\
  test_digit d = test_digit c /\ (test_alnum c = false -> d = c).

(** The string has no digit. *)
Definition digit_free (text : jsstring) : bool :=
  forallb (fun c => negb (test_digit c)) text.

(** A digit that the caesar shift [s] does not bring back, for a shift
    outside the range from -10 to 10. *)
Definition stray_digit (s : Z) : codeunit :=
  if 10 <? s then 48 + (if s <? 20 then 20 - s else 1)
  else 48 + (if s mod 10 =? 0 then 1 else 0).

(** What a position shows of a character that is not alphanumeric: the
    character itself; an alphanumeric position shows nothing. *)
Definition punctuation (c : codeunit) : option codeunit :=
  if test_alnum c then None else Some c.

(** Every value of the mapping is a string of one code unit. *)
Definition unit_values (m : object) : bool :=
  forallb (fun kv => (List.length (snd kv) =? 1)%nat) m.

(** Every character of [text] that is a value of the mapping is also one
    of its keys. *)
Definition values_are_keys (m : object) (text : jsstring) : Prop :=
  forall c, In c text -> In [c] (map snd m) -> In [c] (map fst m).

(** What [validateFormula] asks of a formula. *)
Definition well_configured (f : EncodingFormula) : Prop :=
  id f <> [] /\ name f <> [] /\ algorithm f <> [] /\
  (algorithm f = js "caesar" \/ algorithm f = js "position_shift" ->
   shiftValue (parameters f) <> None) /\
  (algorithm f = js "custom_mapping" ->
   exists m, Types.customMapping (parameters f) = Some m /\ m <> []) /\
  (algorithm f = js "custom" ->
   exists c, Types.customFunction (parameters f) = Some c /\ c <> []).

(** The sample [testFormula] works on. *)
Definition probe (testValue : option jsstring) : jsstring :=
  match testValue with Some v => v | None => js "ABC123XYZ" end.

(** The array [builtInFormulas] of [initializeBuiltInFormulas]
    (context/ConfigurationContext.tsx); [t1] to [t4] are the times the
    four calls of [new Date()] give. *)
Definition builtInFormulas (t1 t2 t3 t4 : Z) : list EncodingFormula :=
  [ {| id := js "caesar_shift_3";
       name := js "Caesar Cipher (Shift by 3)";
       algorithm := js "caesar";
       parameters := {| shiftValue := Some 3;
                        Types.customMapping := None;
                        digitShufflePattern := None;
                        reverseOrder := None;
                        Types.customFunction := None |};
       createdAt := t1;
       description :=
         Some (js "Shifts each character by 3 positions in the alphabet") |};
    {| id := js "caesar_shift_5";
       name := js "Caesar Cipher (Shift by 5)";
       algorithm := js "caesar";
       parameters := {| shiftValue := Some 5;
                        Types.customMapping := None;
                        digitShufflePattern := None;
                        reverseOrder := None;
                        Types.customFunction := None |};
       createdAt := t2;
       description :=
         Some (js "Shifts each character by 5 positions in the alphabet") |};
    {| id := js "digit_reversal";
       name := js "Digit Reversal";
       algorithm := js "digit_reversal";
       parameters := {| shiftValue := None;
                        Types.customMapping := None;
                        digitShufflePattern := None;
                        reverseOrder := Some true;
                        Types.customFunction := None |};
       createdAt := t3;
       description :=
         Some (js "Reverses the order of all digits in the account number") |};
    {| id := js "position_shift_2";
       name := js "Position Shift (2 places)";
       algorithm := js "position_shift";
       parameters := {| shiftValue := Some 2;
                        Types.customMapping := None;
                        digitShufflePattern := None;
                        reverseOrder := None;
                        Types.customFunction := None |};
       createdAt := t4;
       description :=
         Some (js "Shifts each digit 2 positions forward cyclically") |} ].

(** Case analysis on the character-class tests. *)
Ltac split_tests :=
  unfold test_alnum, test_letter, test_digit, is_upper, is_lower in *;
  repeat match goal with
         | |- context [?a <=? ?b] => destruct (Z.leb_spec a b)
         | H : context [?a <=? ?b] |- _ => destruct (Z.leb_spec a b)
         end;
  simpl in *; try discriminate; try lia.

(* ===================================================================== *)
(** ** Basic facts about the JavaScript fragment *)
(* ===================================================================== *)

Lemma str_eqb_eq (a b : jsstring) : str_eqb a b = true <-> a = b.
Proof.
  revert b; induction a as [|x a IH]; intros [|y b]; simpl;
    try (split; congruence).
  rewrite andb_true_iff, Z.eqb_eq, IH. split.
  - intros [-> ->]; reflexivity.
  - intros E; injection E; auto.
Qed.

Lemma str_eqb_refl (a : jsstring) : str_eqb a a = true.
Proof. apply str_eqb_eq; reflexivity. Qed.

Lemma str_eqb_neq (a b : jsstring) : a <> b -> str_eqb a b = false.
Proof.
  intros N. destruct (str_eqb a b) eqn:E; [|reflexivity].
  apply str_eqb_eq in E. contradiction.
Qed.

Lemma join_singletons {A : Type} (g : A -> codeunit) (l : list A) :
  join (map (fun c => [g c]) l) = map g l.
Proof.
  unfold join. induction l as [|c l IH]; simpl; [reflexivity|].
  now rewrite IH.
Qed.

Lemma join_cons (x : jsstring) (l : list jsstring) :
  join (x :: l) = x ++ join l.
Proof. reflexivity. Qed.

Lemma join_units (l : list codeunit) : join (map (fun c => [c]) l) = l.
Proof. rewrite (join_singletons (fun c => c)). apply map_id. Qed.

Lemma join_length_units {A : Type} (f : A -> jsstring) (l : list A) :
  (forall c, List.length (f c) = 1%nat) ->
  List.length (join (map f l)) = List.length l.
Proof.
  intros Hf. unfold join. induction l as [|c l IH]; simpl; [reflexivity|].
  rewrite length_app, Hf, IH. reflexivity.
Qed.

(** The double remainder of [positionShift] is the mathematical residue. *)
Lemma rem_rem_mod (v L : Z) :
  0 < L -> Z.rem (Z.rem v L + L) L = v mod L.
Proof.
  intros HL.
  assert (Hb : - L < Z.rem v L < L).
  { assert (Z.abs (Z.rem v L) < Z.abs L) by (apply Z.rem_bound_abs; lia).
    lia. }
  rewrite Z.rem_mod_nonneg by lia.
  rewrite <- Z.add_mod_idemp_r, Z.mod_same, Z.add_0_r by lia.
  rewrite (Z.quot_rem' v L) at 2.
  rewrite Z.add_comm, Z.mul_comm, Z.mod_add by lia.
  reflexivity.
Qed.

(** [slice] at offsets inside the array. *)
Lemma slice_from {A : Type} (arr : list A) (s : Z) :
  0 <= s <= Z.of_nat (List.length arr) ->
  slice arr s None = skipn (Z.to_nat s) arr.
Proof.
  intros Hs. unfold slice.
  destruct (Z.ltb_spec s 0) as [?|_]; [lia|].
  rewrite Z.min_l by lia.
  apply firstn_all2. rewrite length_skipn. lia.
Qed.

Lemma slice_upto {A : Type} (arr : list A) (s : Z) :
  0 <= s <= Z.of_nat (List.length arr) ->
  slice arr 0 (Some s) = firstn (Z.to_nat s) arr.
Proof.
  intros Hs. unfold slice. simpl (0 <? 0).
  cbv beta iota.
  destruct (Z.ltb_spec s 0) as [?|_]; [lia|].
  rewrite !Z.min_l by lia. rewrite Z.sub_0_r. reflexivity.
Qed.

(* ===================================================================== *)
(** ** The private transforms *)
(* ===================================================================== *)

(** *** caesarCipher *)

Lemma caesarChar_length (shift : Z) (c : codeunit) :
  List.length (caesarChar shift c) = 1%nat.
Proof.
  unfold caesarChar, String_fromCharCode.
  destruct (test_letter c); [reflexivity|].
  destruct (test_digit c); reflexivity.
Qed.

Lemma caesarCipher_length (text : jsstring) (shift : Z) :
  List.length (caesarCipher text shift) = List.length text.
Proof. apply join_length_units, caesarChar_length. Qed.

Lemma caesarCipher_cons (c : codeunit) (text : jsstring) (shift : Z) :
  caesarCipher (c :: text) shift = caesarChar shift c ++ caesarCipher text shift.
Proof. reflexivity. Qed.

(** The residue a shifted offset is reduced to, once the dividend of [%]
    is not negative. *)
Lemma rem_offset (x s m : Z) :
  0 < m -> 0 <= x + s + m -> Z.rem (x + s + m) m = (x + s) mod m.
Proof.
  intros Hm Hx. rewrite Z.rem_mod_nonneg by lia.
  rewrite <- Z.add_mod_idemp_r, Z.mod_same, Z.add_0_r by lia. reflexivity.
Qed.

Lemma fromCharCode_small (n : Z) :
  0 <= n < 65536 -> String_fromCharCode n = [n].
Proof. intros H. unfold String_fromCharCode. now rewrite Z.mod_small. Qed.

Lemma caesarChar_upper (s : Z) (c : codeunit) :
  is_upper c = true -> -26 <= s ->
  caesarChar s c = [(c - 65 + s) mod 26 + 65].
Proof.
  intros Hu Hs. unfold caesarChar, test_letter. rewrite Hu. simpl.
  assert (65 <= c <= 90) by split_tests.
  rewrite rem_offset by lia.
  pose proof (Z.mod_pos_bound (c - 65 + s) 26).
  apply fromCharCode_small. lia.
Qed.

Lemma caesarChar_lower (s : Z) (c : codeunit) :
  is_lower c = true -> -26 <= s ->
  caesarChar s c = [(c - 97 + s) mod 26 + 97].
Proof.
  intros Hl Hs. unfold caesarChar, test_letter. rewrite Hl.
  assert (97 <= c <= 122) by split_tests.
  assert (Hu : is_upper c = false) by split_tests.
  rewrite Hu. simpl.
  rewrite rem_offset by lia.
  pose proof (Z.mod_pos_bound (c - 97 + s) 26).
  apply fromCharCode_small. lia.
Qed.

Lemma caesarChar_digit (s : Z) (c : codeunit) :
  test_digit c = true -> -10 <= s ->
  caesarChar s c = [(c - 48 + s) mod 10 + 48].
Proof.
  intros Hd Hs. unfold caesarChar. rewrite Hd.
  assert (48 <= c <= 57) by split_tests.
  assert (Hl : test_letter c = false) by split_tests.
  rewrite Hl.
  rewrite rem_offset by lia.
  pose proof (Z.mod_pos_bound (c - 48 + s) 10).
  apply fromCharCode_small. lia.
Qed.

Lemma caesarChar_other (s : Z) (c : codeunit) :
  test_alnum c = false -> caesarChar s c = [c].
Proof.
  unfold test_alnum, caesarChar. intros H.
  apply orb_false_iff in H as [-> ->]. reflexivity.
Qed.

(** Every character is a capital, a small letter, a digit or none. *)
Lemma char_class (c : codeunit) :
  is_upper c = true \/ is_lower c = true \/ test_digit c = true
  \/ test_alnum c = false.
Proof.
  unfold test_alnum, test_letter.
  destruct (is_upper c); [now left|].
  destruct (is_lower c); [now right; left|].
  destruct (test_digit c); [now right; right; left|].
  now right; right; right.
Qed.

(** With a zero shift every character is mapped to itself. *)
Lemma caesarChar_zero (c : codeunit) : caesarChar 0 c = [c].
Proof.
  destruct (char_class c) as [H|[H|[H|H]]].
  - rewrite caesarChar_upper by (trivial; lia).
    assert (65 <= c <= 90) by split_tests.
    rewrite Z.add_0_r, Z.mod_small by lia. f_equal; lia.
  - rewrite caesarChar_lower by (trivial; lia).
    assert (97 <= c <= 122) by split_tests.
    rewrite Z.add_0_r, Z.mod_small by lia. f_equal; lia.
  - rewrite caesarChar_digit by (trivial; lia).
    assert (48 <= c <= 57) by split_tests.
    rewrite Z.add_0_r, Z.mod_small by lia. f_equal; lia.
  - now apply caesarChar_other.
Qed.

Lemma caesarCipher_zero (text : jsstring) : caesarCipher text 0 = text.
Proof.
  induction text as [|c text IH]; [reflexivity|].
  rewrite caesarCipher_cons, caesarChar_zero, IH. reflexivity.
Qed.

(** A residue shifted back: the arithmetic behind the round trip. *)
Lemma mod_shift_back (x s m : Z) :
  0 < m -> 0 <= x < m -> ((x + s) mod m - s) mod m = x.
Proof.
  intros Hm Hx.
  rewrite Zminus_mod_idemp_l.
  replace (x + s - s) with x by ring. now apply Z.mod_small.
Qed.

(** One character through [caesarCipher] and back, for shifts the [+ 26]
    and [+ 10] offsets cover in both directions. *)
Lemma caesarChar_roundtrip (s : Z) (c : codeunit) :
  -10 <= s <= 10 ->
  caesarCipher (caesarChar s c) (- s) = [c].
Proof.
  intros Hs.
  destruct (char_class c) as [H|[H|[H|H]]].
  - rewrite caesarChar_upper by (trivial; lia).
    assert (65 <= c <= 90) by split_tests.
    pose proof (Z.mod_pos_bound (c - 65 + s) 26).
    rewrite caesarCipher_cons. cbn [caesarCipher join map split concat].
    rewrite caesarChar_upper by (split_tests; lia).
    rewrite app_nil_r. f_equal.
    replace ((c - 65 + s) mod 26 + 65 - 65 + - s)
      with ((c - 65 + s) mod 26 - s) by ring.
    rewrite mod_shift_back by lia. ring.
  - rewrite caesarChar_lower by (trivial; lia).
    assert (97 <= c <= 122) by split_tests.
    pose proof (Z.mod_pos_bound (c - 97 + s) 26).
    rewrite caesarCipher_cons. cbn [caesarCipher join map split concat].
    rewrite caesarChar_lower by (split_tests; lia).
    rewrite app_nil_r. f_equal.
    replace ((c - 97 + s) mod 26 + 97 - 97 + - s)
      with ((c - 97 + s) mod 26 - s) by ring.
    rewrite mod_shift_back by lia. ring.
  - rewrite caesarChar_digit by (trivial; lia).
    assert (48 <= c <= 57) by split_tests.
    pose proof (Z.mod_pos_bound (c - 48 + s) 10).
    rewrite caesarCipher_cons. cbn [caesarCipher join map split concat].
    rewrite caesarChar_digit by (split_tests; lia).
    rewrite app_nil_r. f_equal.
    replace ((c - 48 + s) mod 10 + 48 - 48 + - s)
      with ((c - 48 + s) mod 10 - s) by ring.
    rewrite mod_shift_back by lia. ring.
  - rewrite caesarChar_other by trivial.
    rewrite caesarCipher_cons. cbn [caesarCipher join map split concat].
    rewrite caesarChar_other by trivial. reflexivity.
Qed.

Lemma caesarCipher_app (a b : jsstring) (shift : Z) :
  caesarCipher (a ++ b) shift = caesarCipher a shift ++ caesarCipher b shift.
Proof.
  unfold caesarCipher, join, split. now rewrite map_app, concat_app.
Qed.

(** [caesarCipher] undone by the opposite shift, for shifts from -10 to 10;
    beyond that range the offsets [+ 26] and [+ 10] no longer keep the
    dividend of [%] non-negative. *)
Lemma caesarCipher_roundtrip (text : jsstring) (s : Z) :
  -10 <= s <= 10 ->
  caesarCipher (caesarCipher text s) (- s) = text.
Proof.
  intros Hs. induction text as [|c text IH]; [reflexivity|].
  rewrite caesarCipher_cons, caesarCipher_app, IH.
  now rewrite caesarChar_roundtrip.
Qed.

(** *** digitReversal *)

Lemma skipn_nth_error {A : Type} (l : list A) :
  forall (i : nat) (r : A),
    nth_error l i = Some r -> skipn i l = r :: skipn (S i) l.
Proof.
  induction l as [|x l IH]; intros [|i] r E; simpl in *; try discriminate.
  - now injection E as ->.
  - now apply IH.
Qed.

(** The counter-driven [map] computes [refill] on what is left of the
    supply from the counter on. *)
Lemma digitReversal_map_refill (reversed : list codeunit) (chars : list codeunit) :
  forall i : nat,
    join (digitReversal_map reversed i chars) = refill chars (skipn i reversed).
Proof.
  induction chars as [|c t IH]; intros i; [reflexivity|].
  cbn [digitReversal_map refill].
  destruct (test_alnum c).
  - rewrite join_cons, IH.
    destruct (nth_error reversed i) as [r|] eqn:E.
    + now rewrite (skipn_nth_error _ _ _ E).
    + apply nth_error_None in E.
      rewrite !skipn_all2 by lia. reflexivity.
  - rewrite join_cons, IH. reflexivity.
Qed.

Lemma digitReversal_refill (text : jsstring) :
  digitReversal text = refill text (rev (filter test_alnum text)).
Proof.
  unfold digitReversal, split. now rewrite digitReversal_map_refill.
Qed.

Lemma refill_length (chars rs : list codeunit) :
  List.length (refill chars rs) = List.length chars.
Proof.
  revert rs. induction chars as [|c t IH]; intros rs; [reflexivity|].
  cbn [refill]. destruct (test_alnum c); [destruct rs|]; simpl; now rewrite IH.
Qed.

(** Refilling a string with its own alphanumerics changes nothing. *)
Lemma refill_self (chars : list codeunit) :
  refill chars (filter test_alnum chars) = chars.
Proof.
  induction chars as [|c t IH]; [reflexivity|].
  cbn [refill filter]. destruct (test_alnum c); now rewrite IH.
Qed.

(** After a refill from alphanumerics the alphanumeric positions are the
    same, so a second refill with a full supply overwrites the first. *)
Lemma refill_refill (chars rs rs' : list codeunit) :
  forallb test_alnum rs = true ->
  (List.length (filter test_alnum chars) <= List.length rs')%nat ->
  refill (refill chars rs) rs' = refill chars rs'.
Proof.
  revert rs rs'. induction chars as [|c t IH]; intros rs rs' Hrs Hlen;
    [reflexivity|].
  cbn [refill filter] in *. destruct (test_alnum c) eqn:Ec.
  - destruct rs' as [|r' rs']; [simpl in Hlen; lia|].
    simpl in Hlen.
    destruct rs as [|r rs].
    + cbn [refill]. rewrite Ec. rewrite IH; [reflexivity|assumption|lia].
    + simpl in Hrs. apply andb_true_iff in Hrs as [Hr Hrs].
      cbn [refill]. rewrite Hr. rewrite IH; [reflexivity|assumption|lia].
  - cbn [refill]. rewrite Ec. now rewrite IH.
Qed.

(** The alphanumerics of a refilled string are the supply, when it has
    one element per position. *)
Lemma filter_refill (chars rs : list codeunit) :
  forallb test_alnum rs = true ->
  List.length rs = List.length (filter test_alnum chars) ->
  filter test_alnum (refill chars rs) = rs.
Proof.
  revert rs. induction chars as [|c t IH]; intros rs Hrs Hlen.
  - destruct rs; [reflexivity|discriminate].
  - cbn [refill filter] in *. destruct (test_alnum c) eqn:Ec.
    + destruct rs as [|r rs]; [discriminate|].
      simpl in Hrs. apply andb_true_iff in Hrs as [Hr Hrs].
      cbn [filter]. rewrite Hr. f_equal. apply IH; [assumption|].
      simpl in Hlen. lia.
    + cbn [filter]. rewrite Ec. now apply IH.
Qed.

Lemma forallb_filter_alnum (l : list codeunit) :
  forallb test_alnum (filter test_alnum l) = true.
Proof.
  apply forallb_forall. intros x Hx. now apply filter_In in Hx.
Qed.

Lemma forallb_rev (f : codeunit -> bool) (l : list codeunit) :
  forallb f l = true -> forallb f (rev l) = true.
Proof.
  rewrite !forallb_forall. intros H x Hx. apply H. now apply in_rev.
Qed.

(** [digitReversal] is its own inverse. *)
Lemma digitReversal_involutive (text : jsstring) :
  digitReversal (digitReversal text) = text.
Proof.
  rewrite (digitReversal_refill (digitReversal text)).
  rewrite (digitReversal_refill text).
  pose proof (forallb_rev _ _ (forallb_filter_alnum text)) as Hall.
  rewrite filter_refill by (trivial; now rewrite length_rev).
  rewrite rev_involutive, refill_refill by (trivial; lia).
  apply refill_self.
Qed.

Lemma digitReversal_length (text : jsstring) :
  List.length (digitReversal text) = List.length text.
Proof. rewrite digitReversal_refill. apply refill_length. Qed.

(** *** positionShift *)

(** The two slices of [positionShift] are a left rotation by the residue
    of the shift. *)
Lemma positionShift_rotate (text : jsstring) (shift : Z) :
  (1 < List.length text)%nat ->
  positionShift text shift =
  rotate_left (Z.to_nat (shift mod Z.of_nat (List.length text))) text.
Proof.
  intros HL. unfold positionShift, split.
  destruct (Z.leb_spec (Z.of_nat (List.length text)) 1) as [?|_]; [lia|].
  rewrite rem_rem_mod by lia.
  pose proof (Z.mod_pos_bound shift (Z.of_nat (List.length text))).
  rewrite slice_from, slice_upto by lia.
  now rewrite join_units.
Qed.

Lemma positionShift_short (text : jsstring) (shift : Z) :
  (List.length text <= 1)%nat -> positionShift text shift = text.
Proof.
  intros HL. unfold positionShift, split.
  destruct (Z.leb_spec (Z.of_nat (List.length text)) 1) as [_|?];
    [reflexivity|lia].
Qed.

Lemma rotate_left_length {A : Type} (s : nat) (l : list A) :
  List.length (rotate_left s l) = List.length l.
Proof.
  unfold rotate_left. rewrite length_app, Nat.add_comm, <- length_app.
  now rewrite firstn_skipn.
Qed.

(** Rotating left by [s] and then by the rest of the length is the
    identity. *)
Lemma rotate_left_back {A : Type} (s : nat) (l : list A) :
  (s <= List.length l)%nat ->
  rotate_left (List.length l - s) (rotate_left s l) = l.
Proof.
  intros Hs. unfold rotate_left.
  assert (Hk : List.length (skipn s l) = (List.length l - s)%nat)
    by apply length_skipn.
  rewrite skipn_app, firstn_app, Hk, Nat.sub_diag.
  rewrite <- Hk at 1. rewrite skipn_all.
  rewrite <- Hk at 1. rewrite firstn_all.
  cbn [skipn firstn]. rewrite app_nil_l, app_nil_r.
  apply firstn_skipn.
Qed.

Lemma positionShift_length (text : jsstring) (shift : Z) :
  List.length (positionShift text shift) = List.length text.
Proof.
  destruct (Nat.le_gt_cases (List.length text) 1) as [H|H].
  - now rewrite positionShift_short.
  - rewrite positionShift_rotate by assumption. apply rotate_left_length.
Qed.

(** [positionShift] undone by the opposite shift, for every integer. *)
Lemma positionShift_roundtrip (text : jsstring) (shift : Z) :
  positionShift (positionShift text shift) (- shift) = text.
Proof.
  destruct (Nat.le_gt_cases (List.length text) 1) as [H|H].
  - now rewrite !positionShift_short by (rewrite ?positionShift_short; trivial).
  - rewrite (positionShift_rotate (positionShift text shift))
      by now rewrite positionShift_length.
    rewrite positionShift_length, positionShift_rotate by assumption.
    set (L := Z.of_nat (List.length text)).
    assert (HL : 1 < L) by (unfold L; lia).
    pose proof (Z.mod_pos_bound shift L) as Hb.
    destruct (Z.eq_dec (shift mod L) 0) as [E|E].
    + rewrite Z.mod_opp_l_z, E by lia.
      unfold rotate_left. simpl. now rewrite !app_nil_r.
    + rewrite Z.mod_opp_l_nz by lia.
      replace (Z.to_nat (L - shift mod L))
        with (List.length text - Z.to_nat (shift mod L))%nat
        by (unfold L in *; lia).
      apply rotate_left_back. unfold L in *. lia.
Qed.

(** *** customMapping and reverseCustomMapping *)

Lemma obj_get_set (obj : object) (k x k' : jsstring) :
  obj_get (obj_set obj k x) k' =
  if str_eqb k k' then Some x else obj_get obj k'.
Proof.
  induction obj as [|[k0 w] rest IH]; [reflexivity|].
  cbn [obj_set obj_get].
  destruct (str_eqb k0 k) eqn:E0; cbn [obj_get].
  - apply str_eqb_eq in E0 as ->.
    destruct (str_eqb k k'); reflexivity.
  - destruct (str_eqb k0 k') eqn:E1; [|apply IH].
    apply str_eqb_eq in E1 as ->.
    now rewrite (str_eqb_neq k k')
      by (intros ->; rewrite str_eqb_refl in E0; discriminate).
Qed.

Lemma find_last {A : Type} (p : A -> bool) (l : list A) (x : A) :
  find p (l ++ [x]) =
  match find p l with
  | Some y => Some y
  | None => if p x then Some x else None
  end.
Proof.
  induction l as [|y l IH]; [reflexivity|].
  simpl. destruct (p y); [reflexivity|apply IH].
Qed.

(** Reading the inverse object: the key stored under [v] is the key of the
    last entry of the mapping whose value is [v]. *)
Lemma reverseMap_get_from (mapping acc : object) (v : jsstring) :
  obj_get (fold_left (fun acc kv => obj_set acc (snd kv) (fst kv)) mapping acc) v =
  match find (fun kv => str_eqb (snd kv) v) (rev mapping) with
  | Some kv => Some (fst kv)
  | None => obj_get acc v
  end.
Proof.
  revert acc. induction mapping as [|kv mapping IH]; intros acc;
    [reflexivity|].
  cbn [fold_left rev]. rewrite IH, find_last.
  destruct (find _ (rev mapping)); [reflexivity|].
  rewrite obj_get_set. destruct (str_eqb (snd kv) v); reflexivity.
Qed.

Lemma reverseMap_last_wins (mapping : object) (v : jsstring) :
  obj_get (reverseMap mapping) v =
  option_map fst (find (fun kv => str_eqb (snd kv) v) (rev mapping)).
Proof.
  unfold reverseMap, Object_entries. rewrite reverseMap_get_from.
  destruct (find _ (rev mapping)); reflexivity.
Qed.

Lemma str_eqb_unit (a b : codeunit) : str_eqb [a] [b] = (a =? b).
Proof. simpl. apply andb_true_r. Qed.

(** The inverse object of [{a: 'b', c: 'b'}] is [{b: 'c'}]. *)
Lemma reverseMap_ambiguous :
  reverseMap ambiguous_mapping = [(js "b", js "c")].
Proof. reflexivity. Qed.

Lemma customMapping_ambiguous (text : jsstring) :
  customMapping text ambiguous_mapping = map ambiguous_forward text.
Proof.
  unfold customMapping, split.
  rewrite <- (join_singletons ambiguous_forward). f_equal.
  apply map_ext. intros ch. unfold ambiguous_forward, ambiguous_mapping.
  change (js "a") with [97]. change (js "b") with [98].
  change (js "c") with [99].
  cbn [obj_get]. rewrite !str_eqb_unit, (Z.eqb_sym 97), (Z.eqb_sym 99).
  destruct (ch =? 97); [reflexivity|].
  destruct (ch =? 99); reflexivity.
Qed.

Lemma reverseCustomMapping_ambiguous (text : jsstring) :
  reverseCustomMapping text ambiguous_mapping = map ambiguous_backward text.
Proof.
  unfold reverseCustomMapping, split. rewrite reverseMap_ambiguous.
  rewrite <- (join_singletons ambiguous_backward). f_equal.
  apply map_ext. intros ch. unfold ambiguous_backward.
  change (js "b") with [98]. change (js "c") with [99].
  cbn [obj_get]. rewrite str_eqb_unit, (Z.eqb_sym 98).
  destruct (ch =? 98); reflexivity.
Qed.

(** A string equal to its image under a character map is fixed point by
    point. *)
Lemma str_eqb_map_fixed (g : codeunit -> codeunit) (text : jsstring) :
  str_eqb text (map g text) = true -> forall c, In c text -> g c = c.
Proof.
  intros E. apply str_eqb_eq in E.
  induction text as [|x text IH]; intros c [].
  - subst. now injection E.
  - injection E as _ E. now apply IH.
Qed.

(* ===================================================================== *)
(** ** encode and decode: which transform each tag selects *)
(* ===================================================================== *)

Lemma or_zero_some (v : Z) : or_zero (Some v) = v.
Proof. unfold or_zero. now destruct (Z.eqb_spec v 0) as [->|]. Qed.

Section Dispatch.

Context {engine : JsEngine}.

Lemma encode_caesar (value : jsstring) (f : EncodingFormula) :
  algorithm f = js "caesar" ->
  encode value f =
  Normal (caesarCipher value (or_zero (shiftValue (parameters f)))).
Proof. intros E. unfold encode. rewrite E. now destruct value. Qed.

Lemma decode_caesar (value : jsstring) (f : EncodingFormula) :
  algorithm f = js "caesar" ->
  decode value f =
  Normal (caesarCipher value (- or_zero (shiftValue (parameters f)))).
Proof. intros E. unfold decode. rewrite E. now destruct value. Qed.

Lemma encode_digit_reversal (value : jsstring) (f : EncodingFormula) :
  algorithm f = js "digit_reversal" ->
  encode value f = Normal (digitReversal value).
Proof. intros E. unfold encode. rewrite E. now destruct value. Qed.

Lemma decode_digit_reversal (value : jsstring) (f : EncodingFormula) :
  algorithm f = js "digit_reversal" ->
  decode value f = Normal (digitReversal value).
Proof. intros E. unfold decode. rewrite E. now destruct value. Qed.

Lemma encode_position_shift (value : jsstring) (f : EncodingFormula) :
  algorithm f = js "position_shift" ->
  encode value f =
  Normal (positionShift value (or_zero (shiftValue (parameters f)))).
Proof. intros E. unfold encode. rewrite E. now destruct value. Qed.

Lemma decode_position_shift (value : jsstring) (f : EncodingFormula) :
  algorithm f = js "position_shift" ->
  decode value f =
  Normal (positionShift value (- or_zero (shiftValue (parameters f)))).
Proof. intros E. unfold decode. rewrite E. now destruct value. Qed.

Lemma encode_custom_mapping (value : jsstring) (f : EncodingFormula) :
  algorithm f = js "custom_mapping" ->
  encode value f =
  Normal (customMapping value
            (or_empty_object (Types.customMapping (parameters f)))).
Proof. intros E. unfold encode. rewrite E. now destruct value. Qed.

Lemma decode_custom_mapping (value : jsstring) (f : EncodingFormula) :
  algorithm f = js "custom_mapping" ->
  decode value f =
  Normal (reverseCustomMapping value
            (or_empty_object (Types.customMapping (parameters f)))).
Proof. intros E. unfold decode. rewrite E. now destruct value. Qed.

Lemma decode_custom (value : jsstring) (f : EncodingFormula) :
  algorithm f = js "custom" ->
  decode value f = Normal value.
Proof. intros E. unfold decode. rewrite E. now destruct value. Qed.

(** The inner [try]/[catch] of [customFunction] absorbs every throw. *)
Lemma customFunction_returns (text functionCode : jsstring) :
  exists s, customFunction text functionCode = Normal s.
Proof.
  unfold customFunction.
  destruct (new_Function (js "text") functionCode) as [func|e]; cbn.
  - destruct (func text) as [r|e]; cbn; eauto.
  - eauto.
Qed.

(** A tag outside the enumeration fails every [case]. *)
Lemma unknown_tag_cases (f : EncodingFormula) :
  ~ In (algorithm f) known_tags ->
  str_eqb (algorithm f) (js "caesar") = false /\
  str_eqb (algorithm f) (js "digit_reversal") = false /\
  str_eqb (algorithm f) (js "position_shift") = false /\
  str_eqb (algorithm f) (js "custom_mapping") = false /\
  str_eqb (algorithm f) (js "custom") = false.
Proof.
  intros N. unfold known_tags in N.
  repeat split; apply str_eqb_neq; intros E; apply N; rewrite E;
    cbn [In]; tauto.
Qed.

Lemma encode_unknown (value : jsstring) (f : EncodingFormula) :
  ~ In (algorithm f) known_tags -> encode value f = Normal value.
Proof.
  intros N. destruct (unknown_tag_cases f N) as (E1 & E2 & E3 & E4 & E5).
  unfold encode. rewrite E1, E2, E3, E4, E5. now destruct value.
Qed.

Lemma decode_unknown (value : jsstring) (f : EncodingFormula) :
  ~ In (algorithm f) known_tags -> decode value f = Normal value.
Proof.
  intros N. destruct (unknown_tag_cases f N) as (E1 & E2 & E3 & E4 & E5).
  unfold decode. rewrite E1, E2, E3, E4, E5. now destruct value.
Qed.

(** [encode] completes normally whatever the value and the formula. *)
Lemma encode_returns (value : jsstring) (f : EncodingFormula) :
  exists s, encode value f = Normal s.
Proof.
  unfold encode. destruct (falsy value); [eauto|].
  repeat match goal with
         | |- context [if ?b then _ else _] => destruct b; cbn; eauto
         end.
  destruct (customFunction_returns value
              (or_string (Types.customFunction (parameters f)) []))
    as [s ->].
  cbn. eauto.
Qed.

Lemma decode_returns (value : jsstring) (f : EncodingFormula) :
  exists s, decode value f = Normal s.
Proof.
  unfold decode. destruct (falsy value); [eauto|].
  repeat match goal with
         | |- context [if ?b then _ else _] => destruct b; cbn; eauto
         end.
Qed.

(** The round trip through [encode] and [decode] for the tags and shifts
    where it holds: [digit_reversal], [position_shift] with any shift, and
    [caesar] with a shift from -10 to 10. *)
Lemma roundtrip_sound (x : jsstring) (f : EncodingFormula) :
  algorithm f = js "digit_reversal" \/
  algorithm f = js "position_shift" \/
  (algorithm f = js "caesar" /\
   -10 <= or_zero (shiftValue (parameters f)) <= 10) ->
  exists y, encode x f = Normal y /\ decode y f = Normal x.
Proof.
  intros [E|[E|[E Hs]]].
  - exists (digitReversal x). rewrite encode_digit_reversal by assumption.
    rewrite decode_digit_reversal by assumption.
    now rewrite digitReversal_involutive.
  - eexists. rewrite encode_position_shift by assumption.
    rewrite decode_position_shift by assumption.
    now rewrite positionShift_roundtrip.
  - eexists. rewrite encode_caesar by assumption.
    rewrite decode_caesar by assumption.
    now rewrite caesarCipher_roundtrip.
Qed.

End Dispatch.

(* ===================================================================== *)
(** ** Properties of the formula engine *)
(* ===================================================================== *)

Section Properties.

Context {engine : JsEngine}.

(** C1 (round-trip law), where the code departs from it: with the caesar
    shift 13 the digit "9" is encoded as "2" and "2" is decoded as "/", and
    with the shift 27 the letter "Z" is encoded as "A" and "A" is decoded as
    "@"; in both cases decoding the encoded value does not give the
    original back. *)
Theorem C1_caesar_roundtrip_broken :
  encode (js "9") (formula_of "caesar" (Some 13) None) = Normal (js "2") /\
  decode (js "2") (formula_of "caesar" (Some 13) None) = Normal (js "/") /\
  encode (js "Z") (formula_of "caesar" (Some 27) None) = Normal (js "A") /\
  decode (js "A") (formula_of "caesar" (Some 27) None) = Normal (js "@").
Proof. repeat split. Qed.

(** C2 (caesar worked example), amended: for a caesar formula whose
    shiftValue is 3, encode applied to "ABC123XYZ" returns exactly
    "DEF456ABC". *)
Theorem C2_caesar_example (f : EncodingFormula) :
  algorithm f = js "caesar" ->
  shiftValue (parameters f) = Some 3 ->
  encode (js "ABC123XYZ") f = Normal (js "DEF456ABC").
Proof.
  intros Ha Hs. rewrite encode_caesar, Hs by assumption. reflexivity.
Qed.

(** C3 (validator worked example), amended: for the formula with empty id,
    empty name, algorithm caesar and no shiftValue, validateFormula returns
    isValid false and exactly three errors: the missing id, the missing
    name and the missing shift value, in this order. *)
Theorem C3_validator_example (f : EncodingFormula) :
  id f = [] ->
  name f = [] ->
  algorithm f = js "caesar" ->
  shiftValue (parameters f) = None ->
  isValid (validateFormula f) = false /\
  errors (validateFormula f) =
    [js "Formula ID is required";
     js "Formula name is required";
     js "Caesar cipher requires a numeric shift value"] /\
  List.length (errors (validateFormula f)) = 3%nat.
Proof.
  intros Hi Hn Ha Hs. unfold validateFormula.
  rewrite Hi, Hn, Ha, Hs. repeat split.
Qed.

(** C4 (non-injective custom_mapping): reading the inverse object at a
    value gives the key of the last entry of the mapping with that value;
    for a custom_mapping formula with the mapping {a: 'b', c: 'b'} the
    inverse object maps 'b' to 'c', decode turns "b" into "c" and, in any
    string, every 'b' into 'c' and nothing else; and testFormula reports
    isReversible false for every sample that contains 'b'. *)
Theorem C4_ambiguous_mapping (f : EncodingFormula) :
  algorithm f = js "custom_mapping" ->
  Types.customMapping (parameters f) = Some ambiguous_mapping ->
  (forall (m : object) (v : jsstring),
      obj_get (reverseMap m) v =
      option_map fst (find (fun kv => str_eqb (snd kv) v) (rev m))) /\
  obj_get (reverseMap ambiguous_mapping) (js "b") = Some (js "c") /\
  decode (js "b") f = Normal (js "c") /\
  (forall x : jsstring, decode x f = Normal (map ambiguous_backward x)) /\
  (forall x : jsstring,
      In (charCode "b") x ->
      exists r, testFormula f (Some x) = Normal r /\ isReversible r = false).
Proof.
  intros Ha Hm.
  assert (Hd : forall x, decode x f = Normal (map ambiguous_backward x)).
  { intros x. rewrite decode_custom_mapping, Hm by assumption.
    cbn [or_empty_object]. now rewrite reverseCustomMapping_ambiguous. }
  split; [exact reverseMap_last_wins|].
  split; [reflexivity|].
  split; [now rewrite Hd|].
  split; [exact Hd|].
  intros x Hb. unfold testFormula.
  rewrite encode_custom_mapping, Hm by assumption.
  cbn [or_empty_object bind]. rewrite Hd. cbn [bind].
  eexists; split; [reflexivity|]. cbn [isReversible].
  rewrite customMapping_ambiguous, map_map.
  destruct (str_eqb x _) eqn:E; [|reflexivity].
  pose proof (str_eqb_map_fixed _ _ E _ Hb) as Hfix.
  discriminate Hfix.
Qed.

(** C5 (digit reversal is an involution): applying digitReversal twice
    returns the string; for a digit_reversal formula encode and decode both
    return digitReversal of their argument; encode of "AB-12" is "21-BA"
    and the same operation on "21-BA" gives "AB-12" back. *)
Theorem C5_digit_reversal_involution (f : EncodingFormula) (x : jsstring) :
  algorithm f = js "digit_reversal" ->
  digitReversal (digitReversal x) = x /\
  encode x f = Normal (digitReversal x) /\
  decode x f = Normal (digitReversal x) /\
  encode (js "AB-12") f = Normal (js "21-BA") /\
  encode (js "21-BA") f = Normal (js "AB-12") /\
  decode (js "21-BA") f = Normal (js "AB-12").
Proof.
  intros Ha.
  rewrite !encode_digit_reversal, !decode_digit_reversal by assumption.
  repeat split. apply digitReversal_involutive.
Qed.

(** C6 (position-shift semantics): for a position_shift formula with the
    integer shiftValue v and a string x of length L: if L <= 1, encode and
    decode return x; otherwise encode returns x rotated left by
    s = ((v % L) + L) % L, which lies in [0, L) and is the same number when
    mod is read as the floored residue; and with v = 2, encode of "ABCDE"
    is "CDEAB" and decode of "CDEAB" is "ABCDE". *)
Theorem C6_position_shift (f : EncodingFormula) (x : jsstring) (v : Z) :
  algorithm f = js "position_shift" ->
  shiftValue (parameters f) = Some v ->
  let L := Z.of_nat (List.length x) in
  let s := Z.rem (Z.rem v L + L) L in
  (L <= 1 -> encode x f = Normal x /\ decode x f = Normal x) /\
  (1 < L ->
     0 <= s < L /\ s = (v mod L + L) mod L /\
     encode x f = Normal (rotate_left (Z.to_nat s) x)) /\
  (v = 2 ->
     encode (js "ABCDE") f = Normal (js "CDEAB") /\
     decode (js "CDEAB") f = Normal (js "ABCDE")).
Proof.
  intros Ha Hv L s.
  assert (He : forall y, encode y f = Normal (positionShift y v))
    by (intros y; now rewrite encode_position_shift, Hv, or_zero_some).
  assert (Hd : forall y, decode y f = Normal (positionShift y (- v)))
    by (intros y; now rewrite decode_position_shift, Hv, or_zero_some).
  repeat split.
  - rewrite He, positionShift_short; [reflexivity|unfold L in *; lia].
  - rewrite Hd, positionShift_short; [reflexivity|unfold L in *; lia].
  - unfold s. rewrite rem_rem_mod by lia. now apply Z.mod_pos_bound; lia.
  - unfold s. rewrite rem_rem_mod by lia. now apply Z.mod_pos_bound; lia.
  - unfold s. rewrite rem_rem_mod by lia.
    rewrite <- Z.add_mod_idemp_r, Z.mod_same, Z.add_0_r by lia.
    now rewrite Z.mod_mod by lia.
  - unfold s. rewrite rem_rem_mod by lia.
    rewrite He, positionShift_rotate; [reflexivity|unfold L in *; lia].
  - subst v. now rewrite He.
  - subst v. now rewrite Hd.
Qed.

(** C7 (fail-open error policy): encode and decode complete normally for
    every value and formula, and for a formula whose algorithm tag is not
    one of the five of the enumeration encode returns the value
    unchanged. *)
Theorem C7_fail_open (value : jsstring) (f : EncodingFormula) :
  (exists s, encode value f = Normal s) /\
  (exists s, decode value f = Normal s) /\
  (~ In (algorithm f) known_tags -> encode value f = Normal value).
Proof.
  split; [apply encode_returns|].
  split; [apply decode_returns|].
  apply encode_unknown.
Qed.

(** C8 (caesar identity): for a caesar formula with shiftValue 0, encode
    returns every string unchanged. *)
Theorem C8_caesar_identity (f : EncodingFormula) (x : jsstring) :
  algorithm f = js "caesar" ->
  shiftValue (parameters f) = Some 0 ->
  encode x f = Normal x.
Proof.
  intros Ha Hs. rewrite encode_caesar, Hs by assumption.
  cbn [or_zero Z.eqb]. now rewrite caesarCipher_zero.
Qed.

(** C9 (custom decode asymmetry): for a formula whose algorithm is custom,
    decode returns its argument unchanged. *)
Theorem C9_custom_decode_identity (f : EncodingFormula) (x : jsstring) :
  algorithm f = js "custom" ->
  decode x f = Normal x.
Proof.
  intros Ha. unfold decode. rewrite Ha.
  destruct x; reflexivity.
Qed.

(** C10 (length preservation): for a caesar, digit_reversal or
    position_shift formula, encode and decode of a string return strings
    with as many code units as the argument. *)
Theorem C10_length_preserved (f : EncodingFormula) (x : jsstring) :
  algorithm f = js "caesar" \/
  algorithm f = js "digit_reversal" \/
  algorithm f = js "position_shift" ->
  exists e d,
    encode x f = Normal e /\ decode x f = Normal d /\
    List.length e = List.length x /\ List.length d = List.length x.
Proof.
  intros [Ha|[Ha|Ha]]; do 2 eexists.
  - rewrite encode_caesar, decode_caesar by assumption.
    repeat split; apply caesarCipher_length.
  - rewrite encode_digit_reversal, decode_digit_reversal by assumption.
    repeat split; apply digitReversal_length.
  - rewrite encode_position_shift, decode_position_shift by assumption.
    repeat split; apply positionShift_length.
Qed.

End Properties.

(* ===================================================================== *)
(** ** The properties at concrete inputs *)
(* ===================================================================== *)

(** With [custom], what encode produced is not undone by decode: under a
    host that compiles [return 'Z';], "A" is encoded as "Z" and "Z" is
    decoded as "Z". *)
Lemma custom_not_inverted :
  @encode tiny_engine (js "A") (custom_formula "return 'Z';")
    = Normal (js "Z") /\
  @decode tiny_engine (js "Z") (custom_formula "return 'Z';")
    = Normal (js "Z").
Proof. split; reflexivity. Qed.

(** The caesar formula with shift 3 does not send "ABC123XYZ" to
    "DEF456CAB". *)
Lemma C2_caesar_example_counterexample :
  @encode strict_engine (js "ABC123XYZ") (formula_of "caesar" (Some 3) None)
  <> Normal (js "DEF456CAB").
Proof. vm_compute. intros H. discriminate H. Qed.

Lemma C2_caesar_example_witness :
  (algorithm (formula_of "caesar" (Some 3) None) = js "caesar" /\
   shiftValue (parameters (formula_of "caesar" (Some 3) None)) = Some 3) /\
  @encode strict_engine (js "ABC123XYZ") (formula_of "caesar" (Some 3) None)
  = Normal (js "DEF456ABC").
Proof.
  split; [split; reflexivity|].
  apply (@C2_caesar_example strict_engine); reflexivity.
Defined.

(** The blank caesar formula is invalid, but with fewer than four
    errors. *)
Lemma C3_validator_example_counterexample :
  ~ (isValid (validateFormula blank_caesar) = false /\
     (4 <= List.length (errors (validateFormula blank_caesar)))%nat).
Proof. vm_compute. intros [_ H]. lia. Qed.

Lemma C3_validator_example_witness :
  (id blank_caesar = [] /\ name blank_caesar = [] /\
   algorithm blank_caesar = js "caesar" /\
   shiftValue (parameters blank_caesar) = None) /\
  isValid (validateFormula blank_caesar) = false /\
  List.length (errors (validateFormula blank_caesar)) = 3%nat.
Proof.
  split; [repeat split|].
  destruct (C3_validator_example blank_caesar) as (Hv & _ & Hl);
    try reflexivity.
  split; [exact Hv|exact Hl].
Defined.

Lemma C4_ambiguous_mapping_witness :
  (algorithm (formula_of "custom_mapping" None (Some ambiguous_mapping))
     = js "custom_mapping" /\
   Types.customMapping
     (parameters (formula_of "custom_mapping" None (Some ambiguous_mapping)))
     = Some ambiguous_mapping /\
   In (charCode "b") (js "cab")) /\
  @decode strict_engine (js "b")
    (formula_of "custom_mapping" None (Some ambiguous_mapping))
    = Normal (js "c") /\
  exists r,
    @testFormula strict_engine
      (formula_of "custom_mapping" None (Some ambiguous_mapping))
      (Some (js "cab")) = Normal r /\
    isReversible r = false.
Proof.
  assert (Hb : In (charCode "b") (js "cab"))
    by (right; right; left; reflexivity).
  split; [repeat split; exact Hb|].
  destruct (@C4_ambiguous_mapping strict_engine
              (formula_of "custom_mapping" None (Some ambiguous_mapping))
              eq_refl eq_refl) as (_ & _ & Hd & _ & Ht).
  split; [exact Hd|exact (Ht (js "cab") Hb)].
Defined.

Lemma C5_digit_reversal_involution_witness :
  algorithm (formula_of "digit_reversal" None None) = js "digit_reversal" /\
  digitReversal (digitReversal (js "A1-b2 c3")) = js "A1-b2 c3" /\
  @encode strict_engine (js "AB-12") (formula_of "digit_reversal" None None)
    = Normal (js "21-BA").
Proof.
  split; [reflexivity|].
  destruct (@C5_digit_reversal_involution strict_engine
              (formula_of "digit_reversal" None None) (js "A1-b2 c3")
              eq_refl) as (Hi & _ & _ & He & _).
  split; [exact Hi|exact He].
Defined.

Lemma C6_position_shift_witness :
  (algorithm (formula_of "position_shift" (Some 2) None)
     = js "position_shift" /\
   shiftValue (parameters (formula_of "position_shift" (Some 2) None))
     = Some 2 /\
   1 < Z.of_nat (List.length (js "ABCDE")) /\
   Z.of_nat (List.length (js "Q")) <= 1 /\ 2 = 2) /\
  @encode strict_engine (js "ABCDE")
    (formula_of "position_shift" (Some 2) None)
    = Normal (rotate_left 2 (js "ABCDE")) /\
  @decode strict_engine (js "CDEAB")
    (formula_of "position_shift" (Some 2) None)
    = Normal (js "ABCDE") /\
  @encode strict_engine (js "Q")
    (formula_of "position_shift" (Some 2) None) = Normal (js "Q") /\
  @decode strict_engine (js "Q")
    (formula_of "position_shift" (Some 2) None) = Normal (js "Q").
Proof.
  assert (HL : 1 < Z.of_nat (List.length (js "ABCDE"))) by (simpl; lia).
  assert (HQ : Z.of_nat (List.length (js "Q")) <= 1) by (simpl; lia).
  split; [repeat split; assumption|].
  destruct (@C6_position_shift strict_engine
              (formula_of "position_shift" (Some 2) None) (js "ABCDE") 2
              eq_refl eq_refl) as (_ & Hrot & Hex).
  destruct (@C6_position_shift strict_engine
              (formula_of "position_shift" (Some 2) None) (js "Q") 2
              eq_refl eq_refl) as (Hshort & _ & _).
  destruct (Hrot HL) as (_ & _ & He).
  destruct (Hex eq_refl) as (_ & Hd).
  destruct (Hshort HQ) as (HeQ & HdQ).
  repeat split; assumption.
Defined.

Lemma C7_fail_open_witness :
  ~ In (algorithm (formula_of "rot13" (Some 13) None)) known_tags /\
  @encode strict_engine (js "X") (formula_of "rot13" (Some 13) None)
    = Normal (js "X") /\
  exists s,
    @encode tiny_engine (js "X") (custom_formula "while (") = Normal s.
Proof.
  assert (N : ~ In (algorithm (formula_of "rot13" (Some 13) None)) known_tags).
  { intros H. repeat destruct H as [H|H]; try discriminate H. exact H. }
  split; [exact N|].
  split.
  - exact (proj2 (proj2 (@C7_fail_open strict_engine (js "X")
                           (formula_of "rot13" (Some 13) None))) N).
  - exact (proj1 (@C7_fail_open tiny_engine (js "X")
                    (custom_formula "while ("))).
Defined.

Lemma C8_caesar_identity_witness :
  (algorithm (formula_of "caesar" (Some 0) None) = js "caesar" /\
   shiftValue (parameters (formula_of "caesar" (Some 0) None)) = Some 0) /\
  @encode strict_engine (js "Hello, World 42!")
    (formula_of "caesar" (Some 0) None) = Normal (js "Hello, World 42!").
Proof.
  split; [split; reflexivity|].
  apply (@C8_caesar_identity strict_engine); reflexivity.
Defined.

Lemma C9_custom_decode_identity_witness :
  algorithm (custom_formula "return 'Z';") = js "custom" /\
  @decode tiny_engine (js "Z") (custom_formula "return 'Z';")
    = Normal (js "Z").
Proof.
  split; [reflexivity|].
  apply (@C9_custom_decode_identity tiny_engine); reflexivity.
Defined.

Lemma C10_length_preserved_witness :
  (algorithm (formula_of "caesar" (Some 27) None) = js "caesar" \/
   algorithm (formula_of "caesar" (Some 27) None) = js "digit_reversal" \/
   algorithm (formula_of "caesar" (Some 27) None) = js "position_shift") /\
  exists e d,
    @encode strict_engine (js "XYZ-789") (formula_of "caesar" (Some 27) None)
      = Normal e /\
    @decode strict_engine (js "XYZ-789") (formula_of "caesar" (Some 27) None)
      = Normal d /\
    List.length e = List.length (js "XYZ-789") /\
    List.length d = List.length (js "XYZ-789").
Proof.
  assert (H : algorithm (formula_of "caesar" (Some 27) None) = js "caesar" \/
              algorithm (formula_of "caesar" (Some 27) None)
                = js "digit_reversal" \/
              algorithm (formula_of "caesar" (Some 27) None)
                = js "position_shift")
    by (left; reflexivity).
  split; [exact H|].
  exact (@C10_length_preserved strict_engine
           (formula_of "caesar" (Some 27) None) (js "XYZ-789") H).
Defined.

(* ===================================================================== *)
(** ** Further properties of caesarCipher *)
(* ===================================================================== *)

Lemma mod26_upper (n : Z) : is_upper (n mod 26 + 65) = true.
Proof. pose proof (Z.mod_pos_bound n 26). split_tests. Qed.

Lemma mod26_lower (n : Z) : is_lower (n mod 26 + 97) = true.
Proof. pose proof (Z.mod_pos_bound n 26). split_tests. Qed.


Lemma caesarCipher_unit (c : codeunit) (s : Z) :
  caesarCipher [c] s = caesarChar s c.
Proof. unfold caesarCipher, join, split. simpl. apply app_nil_r. Qed.

(** The class of the character [caesarChar] returns. *)
Lemma caesarChar_class (s : Z) (c : codeunit) :
  -10 <= s -> exists d, caesarChar s c = [d] /\ same_class c d.
Proof.
  intros Hs. destruct (char_class c) as [H|[H|[H|H]]].
  - rewrite caesarChar_upper by (trivial; lia). eexists; split; [reflexivity|].
    pose proof (Z.mod_pos_bound (c - 65 + s) 26).
    assert (65 <= c <= 90) by split_tests.
    unfold same_class. repeat split; split_tests.
  - rewrite caesarChar_lower by (trivial; lia). eexists; split; [reflexivity|].
    pose proof (Z.mod_pos_bound (c - 97 + s) 26).
    assert (97 <= c <= 122) by split_tests.
    unfold same_class. repeat split; split_tests.
  - rewrite caesarChar_digit by (trivial; lia). eexists; split; [reflexivity|].
    pose proof (Z.mod_pos_bound (c - 48 + s) 10).
    assert (48 <= c <= 57) by split_tests.
    unfold same_class. repeat split; split_tests.
  - rewrite caesarChar_other by trivial. eexists; split; [reflexivity|].
    unfold same_class. repeat split; trivial.
Qed.

(** X1.  With a shift of at least -10, caesarCipher keeps the class of
    every character in place: a capital stays a capital, a small letter a
    small letter, a digit a digit, and any other character is unchanged. *)
Theorem X1_caesar_keeps_classes (text : jsstring) (shift : Z) :
  -10 <= shift ->
  Forall2 same_class text (caesarCipher text shift).
Proof.
  intros Hs. induction text as [|c text IH]; [constructor|].
  rewrite caesarCipher_cons.
  destruct (caesarChar_class shift c Hs) as (d & -> & Hd).
  now constructor.
Qed.




Lemma X1_caesar_keeps_classes_witness :
  -10 <= 33 /\
  Forall2 same_class (js "Az09 #") (caesarCipher (js "Az09 #") 33).
Proof.
  split; [lia|]. apply X1_caesar_keeps_classes; lia.
Defined.

(** The remainder [%] of a negative dividend. *)
Lemma rem_negative (n m : Z) :
  n < 0 -> 0 < m -> n mod m <> 0 -> Z.rem n m = n mod m - m.
Proof.
  intros Hn Hm Hr.
  replace n with (- - n) at 1 by ring.
  rewrite Z.rem_opp_l', Z.rem_mod_nonneg by lia.
  rewrite Z.mod_opp_l_nz by lia. ring.
Qed.

(** [caesarChar] on the digit of value [k], for any shift. *)
Lemma caesarChar_digit_any (s k : Z) :
  0 <= k <= 9 -> caesarChar s (k + 48) = [Z.rem (k + s + 10) 10 + 48].
Proof.
  intros Hk. unfold caesarChar.
  assert (Hl : test_letter (k + 48) = false) by split_tests.
  assert (Hd : test_digit (k + 48) = true) by split_tests.
  rewrite Hl, Hd.
  replace (k + 48 - 48 + s + 10) with (k + s + 10) by ring.
  apply fromCharCode_small.
  assert (Z.abs (Z.rem (k + s + 10) 10) < Z.abs 10)
    by (apply Z.rem_bound_abs; lia).
  lia.
Qed.

(** Outside the range from -10 to 10 some digit is not restored. *)
Lemma caesar_stray_digit (s : Z) :
  s < -10 \/ 10 < s ->
  caesarCipher (caesarCipher [stray_digit s] s) (- s) <> [stray_digit s].
Proof.
  intros Hs. unfold stray_digit.
  destruct (Z.ltb_spec 10 s) as [Hpos|Hneg].
  - set (k := if s <? 20 then 20 - s else 1).
    assert (Hk : 1 <= k <= 9)
      by (unfold k; destruct (Z.ltb_spec s 20); lia).
    rewrite (Z.add_comm 48 k).
    rewrite caesarCipher_unit, caesarChar_digit_any by lia.
    rewrite rem_offset by lia.
    pose proof (Z.mod_pos_bound (k + s) 10) as He.
    rewrite caesarCipher_unit, caesarChar_digit_any by lia.
    assert (Hlt : (k + s) mod 10 + - s + 10 < 0).
    { unfold k in *. destruct (Z.ltb_spec s 20); [|lia].
      replace (20 - s + s) with (2 * 10) by ring.
      rewrite Z.mod_mul by lia. lia. }
    assert (Hmod : ((k + s) mod 10 + - s + 10) mod 10 = k).
    { replace ((k + s) mod 10 + - s + 10)
        with (((k + s) mod 10 - s) + 1 * 10) by ring.
      rewrite Z.mod_add by lia. apply mod_shift_back; lia. }
    rewrite rem_negative by lia. rewrite Hmod.
    intros E. injection E. lia.
  - assert (Hlt : s < -10) by lia.
    set (k := if s mod 10 =? 0 then 1 else 0).
    assert (Hk : 0 <= k <= 1)
      by (unfold k; destruct (s mod 10 =? 0); lia).
    pose proof (Z.mod_pos_bound s 10) as Hsm.
    assert (Hr : 1 <= (k + s + 10) mod 10 <= 9 /\ k + s + 10 < 0).
    { replace (k + s + 10) with (k + s + 1 * 10) by ring.
      rewrite Z.mod_add by lia. unfold k.
      destruct (Z.eqb_spec (s mod 10) 0) as [E0|N0].
      - rewrite Z.add_mod, E0 by lia.
        change ((1 mod 10 + 0) mod 10) with 1.
        pose proof (Z.div_mod s 10). lia.
      - rewrite Z.add_0_l. lia. }
    destruct Hr as (Hr & Hn).
    rewrite (Z.add_comm 48 k).
    rewrite caesarCipher_unit, caesarChar_digit_any by lia.
    rewrite rem_negative by lia.
    rewrite caesarCipher_unit, caesarChar_other by split_tests.
    intros E. injection E. lia.
Qed.

Lemma caesarChar_roundtrip_letters (s : Z) (c : codeunit) :
  -26 <= s <= 26 -> test_digit c = false ->
  caesarCipher (caesarChar s c) (- s) = [c].
Proof.
  intros Hs Hd.
  destruct (char_class c) as [H|[H|[H|H]]]; [| |congruence|].
  - rewrite caesarChar_upper by (trivial; lia).
    assert (65 <= c <= 90) by split_tests.
    rewrite caesarCipher_unit, caesarChar_upper by (apply mod26_upper || lia).
    f_equal.
    replace ((c - 65 + s) mod 26 + 65 - 65 + - s)
      with ((c - 65 + s) mod 26 - s) by ring.
    rewrite mod_shift_back by lia. ring.
  - rewrite caesarChar_lower by (trivial; lia).
    assert (97 <= c <= 122) by split_tests.
    rewrite caesarCipher_unit, caesarChar_lower by (apply mod26_lower || lia).
    f_equal.
    replace ((c - 97 + s) mod 26 + 97 - 97 + - s)
      with ((c - 97 + s) mod 26 - s) by ring.
    rewrite mod_shift_back by lia. ring.
  - rewrite caesarChar_other by trivial.
    rewrite caesarCipher_unit. now apply caesarChar_other.
Qed.

Lemma caesarCipher_roundtrip_letters (text : jsstring) (s : Z) :
  -26 <= s <= 26 -> digit_free text = true ->
  caesarCipher (caesarCipher text s) (- s) = text.
Proof.
  intros Hs. unfold digit_free.
  induction text as [|c text IH]; intros Hd; [reflexivity|].
  simpl in Hd. apply andb_true_iff in Hd as [Hc Hd].
  apply negb_true_iff in Hc.
  rewrite caesarCipher_cons, caesarCipher_app, IH by assumption.
  now rewrite caesarChar_roundtrip_letters.
Qed.

Section CaesarRoundTrip.

Context {engine : JsEngine}.

(** X3.  For a caesar formula with the integer shiftValue s, decode gives
    back every string that encode produced exactly when s lies between
    -10 and 10. *)
Theorem X3_caesar_roundtrip_range (f : EncodingFormula) (s : Z) :
  algorithm f = js "caesar" ->
  shiftValue (parameters f) = Some s ->
  (forall x, exists y, encode x f = Normal y /\ decode y f = Normal x)
  <-> -10 <= s <= 10.
Proof.
  intros Ha Hs. split.
  - intros Hall.
    destruct (Z_le_gt_dec (-10) s) as [Hlo|Hlo];
      [destruct (Z_le_gt_dec s 10) as [Hhi|Hhi]; [lia|]|];
      exfalso;
      destruct (Hall [stray_digit s]) as (y & He & Hd);
      rewrite encode_caesar, Hs, or_zero_some in He by assumption;
      injection He as <-;
      rewrite decode_caesar, Hs, or_zero_some in Hd by assumption;
      injection Hd as Hd;
      revert Hd; apply caesar_stray_digit; lia.
  - intros Hr x. apply roundtrip_sound. right; right.
    now rewrite Hs, or_zero_some.
Qed.

(** X4.  For a caesar formula with shiftValue between -26 and 26, decode
    gives back every string without digits that encode produced. *)
Theorem X4_caesar_roundtrip_letters (f : EncodingFormula) (s : Z)
  (x : jsstring) :
  algorithm f = js "caesar" ->
  shiftValue (parameters f) = Some s ->
  -26 <= s <= 26 ->
  digit_free x = true ->
  exists y, encode x f = Normal y /\ decode y f = Normal x.
Proof.
  intros Ha Hs Hr Hx. eexists.
  rewrite encode_caesar, decode_caesar, Hs, or_zero_some by assumption.
  split; [reflexivity|]. now rewrite caesarCipher_roundtrip_letters.
Qed.

End CaesarRoundTrip.

Lemma X3_caesar_roundtrip_range_witness :
  (algorithm (formula_of "caesar" (Some 13) None) = js "caesar" /\
   shiftValue (parameters (formula_of "caesar" (Some 13) None)) = Some 13) /\
  ((forall x, exists y,
       @encode strict_engine x (formula_of "caesar" (Some 13) None)
         = Normal y /\
       @decode strict_engine y (formula_of "caesar" (Some 13) None)
         = Normal x)
   <-> -10 <= 13 <= 10).
Proof.
  split; [split; reflexivity|].
  apply (@X3_caesar_roundtrip_range strict_engine); reflexivity.
Defined.

Lemma X4_caesar_roundtrip_letters_witness :
  (algorithm (formula_of "caesar" (Some 13) None) = js "caesar" /\
   shiftValue (parameters (formula_of "caesar" (Some 13) None)) = Some 13 /\
   -26 <= 13 <= 26 /\ digit_free (js "Hello, World!") = true) /\
  exists y,
    @encode strict_engine (js "Hello, World!")
      (formula_of "caesar" (Some 13) None) = Normal y /\
    @decode strict_engine y (formula_of "caesar" (Some 13) None)
      = Normal (js "Hello, World!").
Proof.
  split; [repeat split; (reflexivity || lia)|].
  apply (@X4_caesar_roundtrip_letters strict_engine _ 13);
    (reflexivity || lia).
Defined.

(* ===================================================================== *)
(** ** Further properties of digitReversal and positionShift *)
(* ===================================================================== *)

Lemma refill_punctuation (chars rs : list codeunit) :
  forallb test_alnum rs = true ->
  map punctuation (refill chars rs) = map punctuation chars.
Proof.
  revert rs. induction chars as [|c t IH]; intros rs Hrs; [reflexivity|].
  cbn [refill]. destruct (test_alnum c) eqn:Ec.
  - destruct rs as [|r rs]; cbn [map].
    + now rewrite IH.
    + simpl in Hrs. apply andb_true_iff in Hrs as [Hr Hrs].
      rewrite IH by assumption. unfold punctuation. now rewrite Hr, Ec.
  - cbn [map]. now rewrite IH.
Qed.

(** X5.  digitReversal leaves every character that is not alphanumeric at
    its position, keeps the alphanumeric positions alphanumeric, and puts
    the alphanumeric characters there in reverse order. *)
Theorem X5_digit_reversal_shape (text : jsstring) :
  map punctuation (digitReversal text) = map punctuation text /\
  filter test_alnum (digitReversal text) = rev (filter test_alnum text).
Proof.
  rewrite digitReversal_refill.
  pose proof (forallb_rev _ _ (forallb_filter_alnum text)) as Hall.
  split.
  - now apply refill_punctuation.
  - apply filter_refill; [assumption|apply length_rev].
Qed.

Lemma refill_permutation (chars rs : list codeunit) :
  List.length rs = List.length (filter test_alnum chars) ->
  Permutation (refill chars rs)
    (rs ++ filter (fun c => negb (test_alnum c)) chars).
Proof.
  revert rs. induction chars as [|c t IH]; intros rs Hlen.
  - destruct rs; [constructor|discriminate].
  - cbn [refill filter] in *. destruct (test_alnum c) eqn:Ec; cbn [negb].
    + destruct rs as [|r rs]; [discriminate|].
      simpl in Hlen. cbn [app]. constructor. apply IH. lia.
    + etransitivity; [apply perm_skip, IH, Hlen|].
      apply Permutation_middle.
Qed.

Lemma filter_split_permutation (chars : list codeunit) :
  Permutation chars
    (filter test_alnum chars ++ filter (fun c => negb (test_alnum c)) chars).
Proof.
  induction chars as [|c t IH]; [constructor|].
  cbn [filter]. destruct (test_alnum c); cbn [negb app].
  - now constructor.
  - etransitivity; [apply perm_skip, IH|]. apply Permutation_middle.
Qed.

Lemma digitReversal_permutation (text : jsstring) :
  Permutation text (digitReversal text).
Proof.
  rewrite digitReversal_refill. symmetry.
  etransitivity; [apply refill_permutation, length_rev|].
  etransitivity; [|symmetry; apply filter_split_permutation].
  apply Permutation_app_tail. symmetry. apply Permutation_rev.
Qed.

Lemma rotate_left_permutation {A : Type} (s : nat) (l : list A) :
  Permutation l (rotate_left s l).
Proof.
  unfold rotate_left. etransitivity; [|apply Permutation_app_comm].
  now rewrite firstn_skipn.
Qed.

Lemma positionShift_permutation (text : jsstring) (shift : Z) :
  Permutation text (positionShift text shift).
Proof.
  destruct (Nat.le_gt_cases (List.length text) 1) as [H|H].
  - now rewrite positionShift_short.
  - rewrite positionShift_rotate by assumption.
    apply rotate_left_permutation.
Qed.

Lemma firstn_plus {A : Type} (a b : nat) (l : list A) :
  firstn (a + b) l = firstn a l ++ firstn b (skipn a l).
Proof.
  revert l. induction a as [|a IH]; intros [|x l]; simpl;
    try reflexivity.
  - now rewrite firstn_nil.
  - now rewrite IH.
Qed.

(** Two left rotations in a row. *)
Lemma rotate_left_twice {A : Type} (s1 s2 : nat) (l : list A) :
  (s1 < List.length l)%nat -> (s2 < List.length l)%nat ->
  rotate_left s2 (rotate_left s1 l) =
  rotate_left (if (s1 + s2 <? List.length l)%nat
               then s1 + s2 else s1 + s2 - List.length l) l.
Proof.
  intros H1 H2. unfold rotate_left.
  assert (Hk : List.length (skipn s1 l) = (List.length l - s1)%nat)
    by apply length_skipn.
  assert (Hf : List.length (firstn s1 l) = s1)
    by (rewrite length_firstn; lia).
  rewrite skipn_app, firstn_app, Hk.
  destruct (Nat.ltb_spec (s1 + s2) (List.length l)) as [Hlt|Hge].
  - replace (s2 - (List.length l - s1))%nat with 0%nat by lia.
    cbn [skipn firstn]. rewrite app_nil_r, skipn_skipn, <- app_assoc.
    rewrite (Nat.add_comm s2 s1). f_equal.
    symmetry. apply firstn_plus.
  - set (t := (s1 + s2 - List.length l)%nat).
    replace (s2 - (List.length l - s1))%nat with t by (unfold t; lia).
    rewrite (skipn_all2 (skipn s1 l)) by lia.
    rewrite (firstn_all2 (skipn s1 l)) by lia.
    cbn [app]. rewrite firstn_firstn, Nat.min_l by (unfold t; lia).
    rewrite app_assoc. f_equal.
    rewrite <- (firstn_skipn s1 l) at 3.
    rewrite skipn_app, Hf.
    replace (t - s1)%nat with 0%nat by (unfold t; lia). reflexivity.
Qed.

(** X6.  Two position shifts in a row are the position shift by the sum,
    for all integer shifts. *)
Theorem X6_position_shifts_add (text : jsstring) (a b : Z) :
  positionShift (positionShift text a) b = positionShift text (a + b).
Proof.
  destruct (Nat.le_gt_cases (List.length text) 1) as [H|H].
  - now rewrite !positionShift_short by (rewrite ?positionShift_short; trivial).
  - rewrite (positionShift_rotate (positionShift text a))
      by now rewrite positionShift_length.
    rewrite positionShift_length, !positionShift_rotate by assumption.
    remember (Z.of_nat (List.length text)) as L eqn:EL.
    assert (HL : 1 < L) by lia.
    assert (Ha : 0 <= a mod L < L) by (apply Z.mod_pos_bound; lia).
    assert (Hb : 0 <= b mod L < L) by (apply Z.mod_pos_bound; lia).
    rewrite rotate_left_twice by lia.
    f_equal. rewrite Z.add_mod by lia.
    destruct (Nat.ltb_spec (Z.to_nat (a mod L) + Z.to_nat (b mod L))
                (List.length text)) as [Hlt|Hge].
    + rewrite (Z.mod_small (a mod L + b mod L)) by lia. lia.
    + replace (a mod L + b mod L) with ((a mod L + b mod L - L) + 1 * L)
        by ring.
      rewrite Z.mod_add by lia.
      rewrite (Z.mod_small (a mod L + b mod L - L)) by lia. lia.
Qed.

(** X7.  A position shift depends only on the residue of the shift modulo
    the length of the string: adding a multiple of the length changes
    nothing, and a shift that is a multiple of the length returns the
    string unchanged. *)
Theorem X7_position_shift_period (text : jsstring) (v k : Z) :
  positionShift text (v + k * Z.of_nat (List.length text))
    = positionShift text v /\
  positionShift text (k * Z.of_nat (List.length text)) = text.
Proof.
  destruct (Nat.le_gt_cases (List.length text) 1) as [H|H].
  - now rewrite !positionShift_short.
  - rewrite !positionShift_rotate by assumption.
    rewrite Z.mod_add, Z.mod_mul by lia.
    split; [reflexivity|]. unfold rotate_left. simpl. apply app_nil_r.
Qed.

(* ===================================================================== *)
(** ** Further properties of encode and decode *)
(* ===================================================================== *)

Lemma positionShift_zero (text : jsstring) : positionShift text 0 = text.
Proof.
  destruct (Nat.le_gt_cases (List.length text) 1) as [H|H].
  - now rewrite positionShift_short.
  - rewrite positionShift_rotate by assumption.
    rewrite Z.mod_0_l by lia. unfold rotate_left. simpl. apply app_nil_r.
Qed.

Lemma or_string_nonempty (x : option jsstring) (d : jsstring) :
  d <> [] -> or_string x d <> [].
Proof.
  intros Hd. destruct x as [[|c s]|]; simpl; congruence.
Qed.

Lemma join_pieces_nonempty {A : Type} (f : A -> jsstring) (l : list A) :
  (forall a, f a <> []) -> l <> [] -> join (map f l) <> [].
Proof.
  intros Hf Hl. destruct l as [|a l]; [congruence|].
  rewrite map_cons, join_cons. specialize (Hf a).
  destruct (f a); [congruence|discriminate].
Qed.

Lemma same_length_nonempty {A : Type} (x y : list A) :
  List.length y = List.length x -> x <> [] -> y <> [].
Proof. destruct x, y; simpl; congruence. Qed.

Lemma customMapping_nil (m : object) : customMapping [] m = [].
Proof. reflexivity. Qed.

Lemma customMapping_empty (text : jsstring) : customMapping text [] = text.
Proof. unfold customMapping, split. simpl. apply join_units. Qed.

Lemma reverseCustomMapping_empty (text : jsstring) :
  reverseCustomMapping text [] = text.
Proof. unfold reverseCustomMapping, split. simpl. apply join_units. Qed.

Section EncodeDecode.

Context {engine : JsEngine}.

(** X8.  For a digit_reversal or position_shift formula, what encode and
    decode return is a rearrangement of the code units of the argument:
    nothing is added, dropped or altered. *)
Theorem X8_rearrangement (f : EncodingFormula) (x : jsstring) :
  algorithm f = js "digit_reversal" \/ algorithm f = js "position_shift" ->
  exists e d,
    encode x f = Normal e /\ decode x f = Normal d /\
    Permutation x e /\ Permutation x d.
Proof.
  intros [Ha|Ha]; do 2 eexists.
  - rewrite encode_digit_reversal, decode_digit_reversal by assumption.
    repeat split; apply digitReversal_permutation.
  - rewrite encode_position_shift, decode_position_shift by assumption.
    repeat split; apply positionShift_permutation.
Qed.

(** X9.  A missing parameter makes the transform the identity: encode and
    decode return the value unchanged for a caesar or position_shift
    formula without shiftValue and for a custom_mapping formula whose
    mapping is absent or empty. *)
Theorem X9_missing_parameter_identity (f : EncodingFormula) (x : jsstring) :
  ((algorithm f = js "caesar" \/ algorithm f = js "position_shift") /\
   shiftValue (parameters f) = None) \/
  (algorithm f = js "custom_mapping" /\
   (Types.customMapping (parameters f) = None \/
    Types.customMapping (parameters f) = Some [])) ->
  encode x f = Normal x /\ decode x f = Normal x.
Proof.
  intros [[[Ha|Ha] Hs]|[Ha Hm]].
  - rewrite encode_caesar, decode_caesar, Hs by assumption.
    cbn [or_zero Z.opp]. now rewrite caesarCipher_zero.
  - rewrite encode_position_shift, decode_position_shift, Hs by assumption.
    cbn [or_zero Z.opp]. now rewrite positionShift_zero.
  - rewrite encode_custom_mapping, decode_custom_mapping by assumption.
    assert (E : or_empty_object (Types.customMapping (parameters f)) = [])
      by (destruct Hm as [-> | ->]; reflexivity).
    now rewrite E, customMapping_empty, reverseCustomMapping_empty.
Qed.

Lemma encode_nonempty (f : EncodingFormula) (x y : jsstring) :
  x <> [] -> encode x f = Normal y -> y <> [].
Proof.
  intros Hx. unfold encode.
  destruct x as [|c x]; [congruence|]. cbn [falsy].
  repeat match goal with
         | |- context [if ?b then _ else _] => destruct b
         end; cbn [try_catch]; intros E; try injection E as <-.
  - eapply same_length_nonempty; [apply caesarCipher_length|discriminate].
  - eapply same_length_nonempty; [apply digitReversal_length|discriminate].
  - eapply same_length_nonempty; [apply positionShift_length|discriminate].
  - apply join_pieces_nonempty; [|discriminate].
    intros a. apply or_string_nonempty. discriminate.
  - unfold customFunction in E.
    destruct (new_Function _ _) as [func|e]; cbn in E.
    + destruct (func (c :: x)) as [r|e]; cbn in E; injection E as <-.
      * apply or_string_nonempty. discriminate.
      * discriminate.
    + injection E as <-. discriminate.
  - discriminate.
Qed.

Lemma decode_nonempty (f : EncodingFormula) (x y : jsstring) :
  x <> [] -> decode x f = Normal y -> y <> [].
Proof.
  intros Hx. unfold decode.
  destruct x as [|c x]; [congruence|]. cbn [falsy].
  repeat match goal with
         | |- context [if ?b then _ else _] => destruct b
         end; cbn [try_catch]; intros E; injection E as <-.
  - eapply same_length_nonempty; [apply caesarCipher_length|discriminate].
  - eapply same_length_nonempty; [apply digitReversal_length|discriminate].
  - eapply same_length_nonempty; [apply positionShift_length|discriminate].
  - apply join_pieces_nonempty; [|discriminate].
    intros a. apply or_string_nonempty. discriminate.
  - discriminate.
  - discriminate.
Qed.

(** X10.  For every formula and every host, encode and decode return the
    empty string exactly when they are given the empty string: no
    algorithm, mapping or custom function can turn a value into nothing. *)
Theorem X10_empty_iff_empty (f : EncodingFormula) (x y : jsstring) :
  encode x f = Normal y \/ decode x f = Normal y ->
  (y = [] <-> x = []).
Proof.
  intros H. split.
  - intros ->. destruct x as [|c x]; [reflexivity|]. exfalso.
    destruct H as [H|H];
      [eapply encode_nonempty in H|eapply decode_nonempty in H];
      try discriminate; now apply H.
  - intros ->. destruct H as [H|H]; cbn in H; now injection H.
Qed.

End EncodeDecode.

Lemma X8_rearrangement_witness :
  (algorithm (formula_of "position_shift" (Some 2) None)
     = js "digit_reversal" \/
   algorithm (formula_of "position_shift" (Some 2) None)
     = js "position_shift") /\
  exists e d,
    @encode strict_engine (js "AB-12")
      (formula_of "position_shift" (Some 2) None) = Normal e /\
    @decode strict_engine (js "AB-12")
      (formula_of "position_shift" (Some 2) None) = Normal d /\
    Permutation (js "AB-12") e /\ Permutation (js "AB-12") d.
Proof.
  assert (H : algorithm (formula_of "position_shift" (Some 2) None)
                = js "digit_reversal" \/
              algorithm (formula_of "position_shift" (Some 2) None)
                = js "position_shift") by (right; reflexivity).
  split; [exact H|].
  exact (@X8_rearrangement strict_engine _ (js "AB-12") H).
Defined.

Lemma X9_missing_parameter_identity_witness :
  ((algorithm blank_caesar = js "caesar" \/
    algorithm blank_caesar = js "position_shift") /\
   shiftValue (parameters blank_caesar) = None) /\
  @encode strict_engine (js "ABC123XYZ") blank_caesar
    = Normal (js "ABC123XYZ") /\
  @decode strict_engine (js "ABC123XYZ") blank_caesar
    = Normal (js "ABC123XYZ").
Proof.
  assert (H : (algorithm blank_caesar = js "caesar" \/
               algorithm blank_caesar = js "position_shift") /\
              shiftValue (parameters blank_caesar) = None)
    by (split; [left|]; reflexivity).
  split; [exact H|].
  exact (@X9_missing_parameter_identity strict_engine blank_caesar
           (js "ABC123XYZ") (or_introl H)).
Defined.

Lemma X10_empty_iff_empty_witness :
  @encode tiny_engine (js "A") (custom_formula "return 'Z';")
    = Normal (js "Z") /\
  (js "Z" = [] <-> js "A" = []).
Proof.
  assert (H : @encode tiny_engine (js "A") (custom_formula "return 'Z';")
              = Normal (js "Z")) by reflexivity.
  split; [exact H|].
  exact (@X10_empty_iff_empty tiny_engine _ _ _ (or_introl H)).
Defined.

(* ===================================================================== *)
(** ** The round trip through a custom mapping *)
(* ===================================================================== *)

Lemma obj_get_In (m : object) (k v : jsstring) :
  obj_get m k = Some v -> In (k, v) m.
Proof.
  induction m as [|[k0 v0] m IH]; [discriminate|].
  cbn [obj_get]. destruct (str_eqb k0 k) eqn:E.
  - apply str_eqb_eq in E as ->. intros [= ->]. now left.
  - intros H. right. now apply IH.
Qed.

Lemma obj_get_None (m : object) (k : jsstring) :
  obj_get m k = None -> ~ In k (map fst m).
Proof.
  induction m as [|[k0 v0] m IH]; [intros _ []|].
  cbn [obj_get]. destruct (str_eqb k0 k) eqn:E; [discriminate|].
  intros H [Hk|Hk].
  - simpl in Hk. subst. rewrite str_eqb_refl in E. discriminate.
  - now apply IH.
Qed.

(** With distinct values, the search for a value finds its one entry. *)
Lemma find_value_unique (l : object) (k v : jsstring) :
  NoDup (map snd l) -> In (k, v) l ->
  find (fun kv => str_eqb (snd kv) v) l = Some (k, v).
Proof.
  induction l as [|[k0 v0] l IH]; intros Hnd Hin; [destruct Hin|].
  simpl in Hnd. inversion Hnd as [|? ? Hnotin Hnd']; subst.
  cbn [find snd]. destruct (str_eqb v0 v) eqn:E.
  - apply str_eqb_eq in E as ->.
    destruct Hin as [[= ->]|Hin]; [reflexivity|].
    exfalso. apply Hnotin. now apply (in_map snd) in Hin.
  - destruct Hin as [[= -> ->]|Hin].
    + rewrite str_eqb_refl in E. discriminate.
    + now apply IH.
Qed.

Lemma find_value_absent (l : object) (v : jsstring) :
  ~ In v (map snd l) -> find (fun kv => str_eqb (snd kv) v) l = None.
Proof.
  induction l as [|[k0 v0] l IH]; intros Hn; [reflexivity|].
  cbn [find snd]. destruct (str_eqb v0 v) eqn:E.
  - apply str_eqb_eq in E as ->. exfalso. apply Hn. now left.
  - apply IH. intros H. apply Hn. now right.
Qed.

Lemma customMapping_cons (c : codeunit) (text : jsstring) (m : object) :
  customMapping (c :: text) m =
  or_string (obj_get m [c]) [c] ++ customMapping text m.
Proof. reflexivity. Qed.

Lemma reverseCustomMapping_app (a b : jsstring) (m : object) :
  reverseCustomMapping (a ++ b) m =
  reverseCustomMapping a m ++ reverseCustomMapping b m.
Proof.
  unfold reverseCustomMapping, join, split. now rewrite map_app, concat_app.
Qed.

Lemma reverseCustomMapping_unit (d : codeunit) (m : object) :
  reverseCustomMapping [d] m = or_string (obj_get (reverseMap m) [d]) [d].
Proof. unfold reverseCustomMapping, join, split. simpl. apply app_nil_r. Qed.

(** One character through the mapping and back. *)
Lemma customMapping_char_roundtrip (m : object) (c : codeunit) :
  unit_values m = true ->
  NoDup (map snd m) ->
  (In [c] (map snd m) -> In [c] (map fst m)) ->
  reverseCustomMapping (or_string (obj_get m [c]) [c]) m = [c].
Proof.
  intros Hu Hnd Hcl.
  destruct (obj_get m [c]) as [v|] eqn:Eg.
  - apply obj_get_In in Eg.
    assert (Hv : exists d, v = [d]).
    { unfold unit_values in Hu. rewrite forallb_forall in Hu.
      specialize (Hu _ Eg). cbn [snd] in Hu. apply Nat.eqb_eq in Hu.
      destruct v as [|d [|? ?]]; try discriminate. now exists d. }
    destruct Hv as [d ->]. cbn [or_string falsy].
    rewrite reverseCustomMapping_unit, reverseMap_last_wins.
    rewrite (find_value_unique (rev m) [c] [d]).
    + reflexivity.
    + rewrite map_rev. now apply NoDup_rev.
    + now apply in_rev in Eg.
  - cbn [or_string].
    rewrite reverseCustomMapping_unit, reverseMap_last_wins.
    rewrite find_value_absent; [reflexivity|].
    rewrite map_rev, <- in_rev. intros Hin.
    now apply (obj_get_None _ _ Eg), Hcl.
Qed.

Lemma customMapping_roundtrip (m : object) (text : jsstring) :
  unit_values m = true ->
  NoDup (map snd m) ->
  values_are_keys m text ->
  reverseCustomMapping (customMapping text m) m = text.
Proof.
  intros Hu Hnd. induction text as [|c text IH]; intros Hcl; [reflexivity|].
  rewrite customMapping_cons, reverseCustomMapping_app.
  rewrite customMapping_char_roundtrip; trivial.
  - cbn [app]. f_equal. apply IH. intros c' Hc'. apply Hcl. now right.
  - apply Hcl. now left.
Qed.

Section CustomMapping.

Context {engine : JsEngine}.

(** X11.  For a custom_mapping formula whose mapping has values of one
    character each, no value twice, decode gives back every string that
    encode produced, provided each character of the string that occurs as
    a value of the mapping is also one of its keys. *)
Theorem X11_custom_mapping_roundtrip (f : EncodingFormula) (m : object)
  (x : jsstring) :
  algorithm f = js "custom_mapping" ->
  Types.customMapping (parameters f) = Some m ->
  unit_values m = true ->
  NoDup (map snd m) ->
  values_are_keys m x ->
  exists y, encode x f = Normal y /\ decode y f = Normal x.
Proof.
  intros Ha Hm Hu Hnd Hcl. eexists.
  rewrite encode_custom_mapping, decode_custom_mapping, Hm by assumption.
  cbn [or_empty_object]. split; [reflexivity|].
  now rewrite customMapping_roundtrip.
Qed.

End CustomMapping.

(** The mapping [{a: 'b', b: 'a'}], which swaps two letters. *)
Lemma swap_mapping_conditions :
  unit_values [(js "a", js "b"); (js "b", js "a")] = true /\
  NoDup (map snd [(js "a", js "b"); (js "b", js "a")]) /\
  values_are_keys [(js "a", js "b"); (js "b", js "a")] (js "abba!").
Proof.
  split; [reflexivity|]. split.
  - repeat constructor; simpl; intros H;
      repeat destruct H as [H|H]; try discriminate H; exact H.
  - intros c _ Hc. simpl in *.
    destruct Hc as [Hc|[Hc|[]]]; injection Hc as <-; auto.
Defined.

Lemma X11_custom_mapping_roundtrip_witness :
  (algorithm (formula_of "custom_mapping" None
                (Some [(js "a", js "b"); (js "b", js "a")]))
     = js "custom_mapping" /\
   unit_values [(js "a", js "b"); (js "b", js "a")] = true /\
   NoDup (map snd [(js "a", js "b"); (js "b", js "a")]) /\
   values_are_keys [(js "a", js "b"); (js "b", js "a")] (js "abba!")) /\
  exists y,
    @encode strict_engine (js "abba!")
      (formula_of "custom_mapping" None
         (Some [(js "a", js "b"); (js "b", js "a")])) = Normal y /\
    @decode strict_engine y
      (formula_of "custom_mapping" None
         (Some [(js "a", js "b"); (js "b", js "a")])) = Normal (js "abba!").
Proof.
  destruct swap_mapping_conditions as (Hu & Hnd & Hcl).
  split; [repeat split; assumption|].
  exact (@X11_custom_mapping_roundtrip strict_engine
           (formula_of "custom_mapping" None
              (Some [(js "a", js "b"); (js "b", js "a")]))
           [(js "a", js "b"); (js "b", js "a")] (js "abba!")
           eq_refl eq_refl Hu Hnd Hcl).
Defined.

(* ===================================================================== *)
(** ** Further properties of validateFormula *)
(* ===================================================================== *)

Lemma push_if_nil (cond : bool) (msg : string) (errs : list jsstring) :
  push_if cond msg errs = [] <-> cond = false /\ errs = [].
Proof.
  unfold push_if. destruct cond.
  - split; [|intros [? _]; discriminate].
    intros H. destruct errs; discriminate H.
  - tauto.
Qed.

Lemma push_if_length (cond : bool) (msg : string) (errs : list jsstring) :
  List.length (push_if cond msg errs) =
  (List.length errs + (if cond then 1 else 0))%nat.
Proof.
  unfold push_if. destruct cond; [|lia].
  rewrite length_app. reflexivity.
Qed.

Lemma falsy_false (s : jsstring) : falsy s = false <-> s <> [].
Proof. destruct s; simpl; split; congruence. Qed.

Lemma not_a_number_false (x : option Z) :
  not_a_number x = false <-> x <> None.
Proof. destruct x; simpl; split; congruence. Qed.

Lemma no_mapping_false (m : option object) :
  no_mapping m = false <-> exists o, m = Some o /\ o <> [].
Proof.
  destruct m as [[|kv o]|]; simpl; split; try discriminate.
  - intros (o & [= <-] & H). congruence.
  - intros _. eexists; split; [reflexivity|discriminate].
  - reflexivity.
  - intros (o & H & _). discriminate.
Qed.

Lemma no_string_false (s : option jsstring) :
  no_string s = false <-> exists c, s = Some c /\ c <> [].
Proof.
  destruct s as [[|a c]|]; simpl; split; try discriminate.
  - intros (o & [= <-] & H). congruence.
  - intros _. eexists; split; [reflexivity|discriminate].
  - reflexivity.
  - intros (o & H & _). discriminate.
Qed.

Lemma isValid_errors (f : EncodingFormula) :
  isValid (validateFormula f) = true <-> errors (validateFormula f) = [].
Proof.
  change (isValid (validateFormula f))
    with ((List.length (errors (validateFormula f)) =? 0)%nat).
  destruct (errors (validateFormula f)); simpl; split; congruence.
Qed.

Ltac tag_clash :=
  match goal with
  | E : algorithm ?f = js _, H : algorithm ?f = js _ |- _ =>
      rewrite E in H; discriminate H
  | N : str_eqb (algorithm ?f) ?t = false, H : algorithm ?f = ?t |- _ =>
      rewrite H, str_eqb_refl in N; discriminate N
  end.

(** X12.  validateFormula declares a formula valid exactly when its id,
    name and algorithm tag are non-empty and the parameter of its
    algorithm is present: a shiftValue for caesar and position_shift, a
    mapping with at least one key for custom_mapping, a non-empty function
    text for custom.  Nothing is asked of digit_reversal, nor of a tag
    outside the enumeration. *)
Theorem X12_valid_iff_well_configured (f : EncodingFormula) :
  isValid (validateFormula f) = true <-> well_configured f.
Proof.
  rewrite isValid_errors. unfold validateFormula, well_configured.
  cbn [errors].
  destruct (str_eqb (algorithm f) (js "caesar")) eqn:E1;
    [apply str_eqb_eq in E1|
     destruct (str_eqb (algorithm f) (js "position_shift")) eqn:E2;
     [apply str_eqb_eq in E2|
      destruct (str_eqb (algorithm f) (js "custom_mapping")) eqn:E3;
      [apply str_eqb_eq in E3|
       destruct (str_eqb (algorithm f) (js "custom")) eqn:E4;
       [apply str_eqb_eq in E4|]]]];
    rewrite !push_if_nil, !falsy_false,
      ?not_a_number_false, ?no_mapping_false, ?no_string_false.
  - split.
    + intros (Hs & Ha & Hn & Hi & _). repeat split; trivial;
        intros; tag_clash.
    + intros (Hi & Hn & Ha & Hs & _). repeat split; auto.
  - split.
    + intros (Hs & Ha & Hn & Hi & _). repeat split; trivial;
        intros; tag_clash.
    + intros (Hi & Hn & Ha & Hs & _). repeat split; auto.
  - split.
    + intros (Hm & Ha & Hn & Hi & _). repeat split; trivial;
        try (intros; tag_clash).
      intros [H|H]; tag_clash.
    + intros (Hi & Hn & Ha & _ & Hm & _). repeat split; auto.
  - split.
    + intros (Hc & Ha & Hn & Hi & _). repeat split; trivial;
        try (intros; tag_clash).
      intros [H|H]; tag_clash.
    + intros (Hi & Hn & Ha & _ & _ & Hc). repeat split; auto.
  - split.
    + intros (Ha & Hn & Hi & _). repeat split; trivial;
        try (intros; tag_clash).
      intros [H|H]; tag_clash.
    + intros (Hi & Hn & Ha & _). repeat split; auto.
Qed.

(** X13.  validateFormula never reports more than three errors, and the
    formula is valid exactly when the list of errors is empty. *)
Theorem X13_at_most_three_errors (f : EncodingFormula) :
  (List.length (errors (validateFormula f)) <= 3)%nat /\
  (isValid (validateFormula f) = true <-> errors (validateFormula f) = []).
Proof.
  split; [|apply isValid_errors].
  unfold validateFormula. cbn [errors].
  destruct (algorithm f) as [|a tag] eqn:Ea.
  - change (str_eqb [] (js "caesar")) with false.
    change (str_eqb [] (js "position_shift")) with false.
    change (str_eqb [] (js "custom_mapping")) with false.
    change (str_eqb [] (js "custom")) with false.
    cbv iota. rewrite !push_if_length. simpl.
    destruct (falsy (id f)), (falsy (name f)); simpl; lia.
  - cbn [falsy].
    repeat match goal with
           | |- context [if ?b then _ else _] => destruct b
           end;
      rewrite !push_if_length; simpl;
      repeat match goal with
             | |- context [if ?b then _ else _] => destruct b
             end; simpl; lia.
Qed.

(* ===================================================================== *)
(** ** Properties of testFormula *)
(* ===================================================================== *)

Section SelfTest.

Context {engine : JsEngine}.

Lemma testFormula_unfold (f : EncodingFormula) (sample : option jsstring)
  (e d : jsstring) :
  encode (probe sample) f = Normal e ->
  decode e f = Normal d ->
  testFormula f sample =
  Normal {| original := probe sample; encoded := e; decoded := d;
            isReversible := str_eqb (probe sample) d |}.
Proof.
  intros He Hd. unfold testFormula. fold (probe sample).
  rewrite He. cbn [bind]. rewrite Hd. reflexivity.
Qed.

(** A formula for which decode restores what encode produced passes the
    self-test. *)
Ltac self_test_by_roundtrip f sample H :=
  let y := fresh "y" in
  let He := fresh "He" in
  let Hd := fresh "Hd" in
  destruct (roundtrip_sound (probe sample) f H) as (y & He & Hd);
  eexists; rewrite (testFormula_unfold f sample _ _ He Hd);
  split; [reflexivity|apply str_eqb_refl].


(** X15.  testFormula reports isReversible true on every sample for a
    digit_reversal formula, a position_shift formula with any shift, and a
    caesar formula whose shift, zero when absent, lies between -10 and
    10. *)
Theorem X15_self_test_passes (f : EncodingFormula)
  (sample : option jsstring) :
  algorithm f = js "digit_reversal" \/
  algorithm f = js "position_shift" \/
  (algorithm f = js "caesar" /\
   -10 <= or_zero (shiftValue (parameters f)) <= 10) ->
  exists r, testFormula f sample = Normal r /\ isReversible r = true.
Proof. intros H. self_test_by_roundtrip f sample H. Qed.

(** X16.  Each of the four built-in formulas is valid for validateFormula
    and passes testFormula on every sample. *)
Theorem X16_built_in_formulas (t1 t2 t3 t4 : Z) (f : EncodingFormula)
  (sample : option jsstring) :
  In f (builtInFormulas t1 t2 t3 t4) ->
  isValid (validateFormula f) = true /\
  exists r, testFormula f sample = Normal r /\ isReversible r = true.
Proof.
  intros Hin. unfold builtInFormulas in Hin.
  destruct Hin as [<-|[<-|[<-|[<-|[]]]]];
    (split; [reflexivity|]);
    match goal with
    | |- exists r, testFormula ?g _ = _ /\ _ =>
        assert (H : algorithm g = js "digit_reversal" \/
                    algorithm g = js "position_shift" \/
                    (algorithm g = js "caesar" /\
                     -10 <= or_zero (shiftValue (parameters g)) <= 10));
        [|self_test_by_roundtrip g sample H]
    end.
  - right; right. split; [reflexivity|]. cbn. lia.
  - right; right. split; [reflexivity|]. cbn. lia.
  - left. reflexivity.
  - right; left. reflexivity.
Qed.

(** X17.  For a custom formula decode undoes nothing, so the report of
    testFormula has the decoded string equal to the encoded one, and
    isReversible is true exactly when encode left the sample as it was. *)
Theorem X17_custom_self_test (f : EncodingFormula)
  (sample : option jsstring) :
  algorithm f = js "custom" ->
  exists r,
    testFormula f sample = Normal r /\
    decoded r = encoded r /\
    (isReversible r = true <-> encoded r = probe sample).
Proof.
  intros Ha.
  destruct (encode_returns (probe sample) f) as [e He].
  exists {| original := probe sample; encoded := e; decoded := e;
            isReversible := str_eqb (probe sample) e |}.
  split; [apply testFormula_unfold; [assumption|now apply decode_custom]|].
  cbn [encoded decoded isReversible].
  repeat split; trivial.
  - intros H. symmetry. now apply str_eqb_eq.
  - intros ->. apply str_eqb_refl.
Qed.

(** X18.  A formula whose tag is outside the enumeration does nothing and
    is not detected by the self-test: decode returns the value unchanged,
    and testFormula reports the sample as encoded and decoded string with
    isReversible true. *)
Theorem X18_unknown_tag_undetected (f : EncodingFormula) (x : jsstring)
  (sample : option jsstring) :
  ~ In (algorithm f) known_tags ->
  decode x f = Normal x /\
  testFormula f sample =
  Normal {| original := probe sample; encoded := probe sample;
            decoded := probe sample; isReversible := true |}.
Proof.
  intros N. split; [now apply decode_unknown|].
  rewrite (testFormula_unfold f sample _ _
             (encode_unknown _ f N) (decode_unknown _ f N)).
  now rewrite str_eqb_refl.
Qed.

End SelfTest.

Lemma X15_self_test_passes_witness :
  (algorithm (formula_of "caesar" (Some (-7)) None) = js "digit_reversal" \/
   algorithm (formula_of "caesar" (Some (-7)) None) = js "position_shift" \/
   (algorithm (formula_of "caesar" (Some (-7)) None) = js "caesar" /\
    -10 <= or_zero (shiftValue (parameters
                      (formula_of "caesar" (Some (-7)) None))) <= 10)) /\
  exists r,
    @testFormula strict_engine (formula_of "caesar" (Some (-7)) None) None
      = Normal r /\
    isReversible r = true.
Proof.
  assert (H : algorithm (formula_of "caesar" (Some (-7)) None)
                = js "digit_reversal" \/
              algorithm (formula_of "caesar" (Some (-7)) None)
                = js "position_shift" \/
              (algorithm (formula_of "caesar" (Some (-7)) None)
                 = js "caesar" /\
               -10 <= or_zero (shiftValue (parameters
                         (formula_of "caesar" (Some (-7)) None))) <= 10))
    by (right; right; split; [reflexivity|simpl; lia]).
  split; [exact H|].
  exact (@X15_self_test_passes strict_engine _ None H).
Defined.

Lemma X16_built_in_formulas_witness :
  In (nth 3 (builtInFormulas 0 1 2 3) blank_caesar) (builtInFormulas 0 1 2 3) /\
  isValid (validateFormula (nth 3 (builtInFormulas 0 1 2 3) blank_caesar)) = true /\
  exists r,
    @testFormula strict_engine (nth 3 (builtInFormulas 0 1 2 3) blank_caesar)
      (Some (js "12")) = Normal r /\
    isReversible r = true.
Proof.
  assert (H : In (nth 3 (builtInFormulas 0 1 2 3) blank_caesar) (builtInFormulas 0 1 2 3))
    by (right; right; right; left; reflexivity).
  split; [exact H|].
  exact (@X16_built_in_formulas strict_engine 0 1 2 3 _ (Some (js "12")) H).
Defined.

Lemma X17_custom_self_test_witness :
  algorithm (custom_formula "return 'Z';") = js "custom" /\
  exists r,
    @testFormula tiny_engine (custom_formula "return 'Z';") None = Normal r /\
    decoded r = encoded r /\
    (isReversible r = true <-> encoded r = probe None).
Proof.
  split; [reflexivity|].
  exact (@X17_custom_self_test tiny_engine (custom_formula "return 'Z';")
           None eq_refl).
Defined.

Lemma X18_unknown_tag_undetected_witness :
  ~ In (algorithm (formula_of "rot13" (Some 13) None)) known_tags /\
  @decode strict_engine (js "X") (formula_of "rot13" (Some 13) None)
    = Normal (js "X") /\
  @testFormula strict_engine (formula_of "rot13" (Some 13) None) None =
  Normal {| original := probe None; encoded := probe None;
            decoded := probe None; isReversible := true |}.
Proof.
  assert (N : ~ In (algorithm (formula_of "rot13" (Some 13) None)) known_tags).
  { intros H. repeat destruct H as [H|H]; try discriminate H. exact H. }
  split; [exact N|].
  exact (@X18_unknown_tag_undetected strict_engine
           (formula_of "rot13" (Some 13) None) (js "X") None N).
Defined.

(* ===================================================================== *)
(** ** App.tsx: properties of the algorithm tables *)
(* ===================================================================== *)


Lemma app_caesarChar_agrees (shift : Z) (c : codeunit) :
  0 <= shift ->
  App.encodingAlgorithms.caesarChar shift c = caesarChar shift c.
Proof.
  intros Hs. unfold App.encodingAlgorithms.caesarChar, caesarChar.
  destruct (test_letter c) eqn:El.
  - destruct (is_upper c) eqn:Eu.
    + assert (65 <= c <= 90) by split_tests.
      destruct (Z.leb_spec c 90); [|lia].
      rewrite rem_offset, Z.rem_mod_nonneg by lia. reflexivity.
    + assert (97 <= c <= 122) by split_tests.
      destruct (Z.leb_spec c 90); [lia|].
      rewrite rem_offset, Z.rem_mod_nonneg by lia. reflexivity.
  - destruct (test_digit c) eqn:Ed; [|reflexivity].
    assert (48 <= c <= 57) by split_tests.
    rewrite rem_offset, Z.rem_mod_nonneg by lia. reflexivity.
Qed.



Lemma app_caesar_cons (c : codeunit) (value : jsstring) (shift : Z) :
  App.encodingAlgorithms.caesar (c :: value) shift =
  App.encodingAlgorithms.caesarChar shift c
    ++ App.encodingAlgorithms.caesar value shift.
Proof. reflexivity. Qed.

Lemma app_caesar_unit (c : codeunit) (shift : Z) :
  App.encodingAlgorithms.caesar [c] shift
  = App.encodingAlgorithms.caesarChar shift c.
Proof.
  unfold App.encodingAlgorithms.caesar, join, split. simpl. apply app_nil_r.
Qed.

Lemma app_caesar_app (a b : jsstring) (shift : Z) :
  App.encodingAlgorithms.caesar (a ++ b) shift =
  App.encodingAlgorithms.caesar a shift
    ++ App.encodingAlgorithms.caesar b shift.
Proof.
  unfold App.encodingAlgorithms.caesar, join, split.
  now rewrite map_app, concat_app.
Qed.

Lemma app_caesarChar_one (shift : Z) (c : codeunit) :
  exists d, App.encodingAlgorithms.caesarChar shift c = [d].
Proof.
  unfold App.encodingAlgorithms.caesarChar, String_fromCharCode.
  destruct (test_letter c); [eauto|]. destruct (test_digit c); eauto.
Qed.

Lemma app_caesarChar_zero (c : codeunit) :
  App.encodingAlgorithms.caesarChar 0 c = [c].
Proof.
  rewrite app_caesarChar_agrees by lia. apply caesarChar_zero.
Qed.

Lemma app_caesar_zero (value : jsstring) :
  App.encodingAlgorithms.caesar value 0 = value.
Proof.
  induction value as [|c value IH]; [reflexivity|].
  now rewrite app_caesar_cons, app_caesarChar_zero, IH.
Qed.

(** [caesar] of App.tsx on a capital, for any shift. *)
Lemma app_caesarChar_upper (s c : Z) :
  65 <= c <= 90 ->
  App.encodingAlgorithms.caesarChar s c = [Z.rem (c - 65 + s) 26 + 65].
Proof.
  intros Hc. unfold App.encodingAlgorithms.caesarChar.
  assert (Hl : test_letter c = true) by split_tests.
  rewrite Hl. destruct (Z.leb_spec c 90); [|lia].
  apply fromCharCode_small.
  assert (Z.abs (Z.rem (c - 65 + s) 26) < Z.abs 26)
    by (apply Z.rem_bound_abs; lia).
  lia.
Qed.

(** With a positive shift the letter Z comes back as the character @. *)
Lemma app_caesar_Z_positive (s : Z) :
  0 < s ->
  App.decodingAlgorithms.caesar (App.encodingAlgorithms.caesar [90] s) s
  = [64].
Proof.
  intros Hs. unfold App.decodingAlgorithms.caesar.
  rewrite app_caesar_unit, app_caesarChar_upper by lia.
  replace (90 - 65 + s) with (25 + s) by ring.
  rewrite Z.rem_mod_nonneg by lia.
  pose proof (Z.mod_pos_bound (25 + s) 26) as He.
  rewrite app_caesar_unit, app_caesarChar_upper by lia.
  replace ((25 + s) mod 26 + 65 - 65 + - s) with ((25 + s) mod 26 - s)
    by ring.
  assert (Hm : ((25 + s) mod 26 - s) mod 26 = 25)
    by (apply mod_shift_back; lia).
  assert (Hn : (25 + s) mod 26 - s < 0).
  { pose proof (Z.div_mod (25 + s) 26).
    assert (1 <= (25 + s) / 26) by (apply Z.div_le_lower_bound; lia).
    lia. }
  rewrite rem_negative by lia. rewrite Hm. reflexivity.
Qed.

(** With a negative shift the letter A or the letter Z does not come
    back. *)
Lemma app_caesar_AZ_negative (s : Z) :
  s < 0 ->
  App.decodingAlgorithms.caesar (App.encodingAlgorithms.caesar [65] s) s
    <> [65] \/
  App.decodingAlgorithms.caesar (App.encodingAlgorithms.caesar [90] s) s
    <> [90].
Proof.
  intros Hs. unfold App.decodingAlgorithms.caesar.
  pose proof (Z.mod_pos_bound s 26) as Hm.
  destruct (Z.eq_dec (s mod 26) 0) as [E|E].
  - right.
    rewrite app_caesar_unit, app_caesarChar_upper by lia.
    replace (90 - 65 + s) with (25 + s) by ring.
    assert (H25 : (25 + s) mod 26 = 25).
    { rewrite Z.add_mod, E by lia. reflexivity. }
    assert (s <= -26) by (pose proof (Z.div_mod s 26); lia).
    rewrite rem_negative by lia. rewrite H25.
    change (25 - 26 + 65) with 64.
    rewrite app_caesar_unit. intros Habs; vm_compute in Habs; discriminate Habs.
  - left.
    rewrite app_caesar_unit, app_caesarChar_upper by lia.
    replace (65 - 65 + s) with s by ring.
    rewrite rem_negative by lia.
    set (c' := s mod 26 - 26 + 65).
    assert (Hc : 40 <= c' <= 64) by (unfold c'; lia).
    rewrite app_caesar_unit. unfold App.encodingAlgorithms.caesarChar.
    assert (Hl : test_letter c' = false) by split_tests.
    rewrite Hl. destruct (test_digit c') eqn:Ed.
    + assert (48 <= c' <= 57) by split_tests.
      rewrite Z.rem_mod_nonneg by lia.
      pose proof (Z.mod_pos_bound (c' - 48 + - s) 10).
      rewrite fromCharCode_small by lia.
      intros H'; injection H'; lia.
    + intros H'; injection H'; lia.
Qed.

(** X20.  With the caesar of App.tsx, decoding gives back every encoded
    string only for the shift 0: for any other integer shift the string
    "AZ" is not restored. *)
Theorem X20_app_caesar_roundtrip_only_zero (s : Z) :
  (forall x,
      App.decodingAlgorithms.caesar (App.encodingAlgorithms.caesar x s) s = x)
  <-> s = 0.
Proof.
  split.
  - intros Hall. destruct (Z.lt_trichotomy s 0) as [Hneg|[H0|Hpos]];
      [exfalso|assumption|exfalso].
    + destruct (app_caesar_AZ_negative s Hneg) as [H|H]; apply H, Hall.
    + pose proof (Hall [90]) as H.
      rewrite app_caesar_Z_positive in H by assumption. discriminate H.
  - intros -> x. unfold App.decodingAlgorithms.caesar.
    change (- 0) with 0. now rewrite !app_caesar_zero.
Qed.

(** *** position *)

Lemma char_at_inside (chars : list codeunit) (pos : Z) :
  inside (List.length chars) pos = true ->
  exists c, nth_error chars (Z.to_nat pos) = Some c /\
            char_at chars pos = Some [c].
Proof.
  unfold inside, char_at. intros H. apply andb_true_iff in H as [H0 Hn].
  apply Z.leb_le in H0. apply Z.ltb_lt in Hn.
  destruct (Z.ltb_spec pos 0); [lia|].
  destruct (nth_error chars (Z.to_nat pos)) as [c|] eqn:E.
  - now exists c.
  - apply nth_error_None in E. lia.
Qed.

Lemma char_at_outside (chars : list codeunit) (pos : Z) :
  inside (List.length chars) pos = false -> char_at chars pos = None.
Proof.
  unfold inside, char_at. intros H.
  destruct (Z.ltb_spec pos 0); [reflexivity|].
  destruct (Z.leb_spec 0 pos); [|lia]. simpl in H.
  apply Z.ltb_ge in H.
  rewrite (proj2 (nth_error_None chars (Z.to_nat pos))) by lia.
  reflexivity.
Qed.

Lemma app_position_cons (value : jsstring) (pos : Z) (positions : list Z) :
  App.encodingAlgorithms.position value (pos :: positions) =
  or_string (char_at value pos) []
    ++ App.encodingAlgorithms.position value positions.
Proof. reflexivity. Qed.

(** X21.  position of the encoding table returns one character for each
    listed position that lies inside the string and nothing for the
    others, so its result is as long as the number of positions inside the
    string: characters at positions that are not listed are dropped. *)
Theorem X21_app_position_length (value : jsstring) (positions : list Z) :
  List.length (App.encodingAlgorithms.position value positions)
  = List.length (filter (inside (List.length value)) positions).
Proof.
  induction positions as [|pos positions IH]; [reflexivity|].
  rewrite app_position_cons, length_app, IH. cbn [filter].
  destruct (inside (List.length value) pos) eqn:E.
  - destruct (char_at_inside value pos E) as (c & _ & ->). reflexivity.
  - rewrite (char_at_outside value pos E). reflexivity.
Qed.

Lemma array_get_set_nth (arr : jsarray) (k j : nat) (v : option jsstring) :
  array_get (set_nth arr k v) j
  = if (j =? k)%nat then v else array_get arr j.
Proof.
  unfold array_get. revert arr j.
  induction k as [|k IH]; intros [|x arr] [|j]; cbn [set_nth nth Nat.eqb];
    try reflexivity.
  - now destruct j.
  - rewrite IH. destruct (j =? k)%nat; [reflexivity|]. now destruct j.
  - apply IH.
Qed.

Lemma array_get_set (arr : jsarray) (i : Z) (j : nat) (v : option jsstring) :
  is_array_index i = true ->
  array_get (array_set arr i v) j
  = if (j =? Z.to_nat i)%nat then v else array_get arr j.
Proof.
  intros Hi. unfold array_set. rewrite Hi. apply array_get_set_nth.
Qed.

(** What the [forEach] leaves at index [j], when the element written for a
    position depends on the position only. *)
Lemma position_forEach_get (chars : list codeunit)
  (val : Z -> option jsstring) (positions : list Z) :
  forall (i : nat) (result : jsarray) (j : nat),
    Forall (fun p => is_array_index p = true) positions ->
    (forall k p, nth_error positions k = Some p ->
                 char_at chars (Z.of_nat (i + k)) = val p) ->
    array_get
      (App.decodingAlgorithms.position_forEach chars positions i result) j
    = if existsb (fun p => (j =? Z.to_nat p)%nat) positions
      then val (Z.of_nat j)
      else array_get result j.
Proof.
  induction positions as [|pos rest IH]; intros i result j Hidx Hval;
    [reflexivity|].
  inversion Hidx as [|? ? Hpos Hrest]; subst.
  cbn [App.decodingAlgorithms.position_forEach existsb].
  rewrite IH; trivial.
  - destruct (existsb _ rest); [now rewrite orb_true_r|].
    rewrite orb_false_r, array_get_set by assumption.
    destruct (Nat.eqb_spec j (Z.to_nat pos)) as [->|_]; [|reflexivity].
    specialize (Hval 0%nat pos eq_refl). rewrite Nat.add_0_r in Hval.
    rewrite Hval. f_equal.
    unfold is_array_index in Hpos. apply andb_true_iff in Hpos as [H0 _].
    apply Z.leb_le in H0. lia.
  - intros k p Hk. specialize (Hval (S k) p Hk).
    now replace (S i + k)%nat with (i + S k)%nat by lia.
Qed.

Lemma array_join_holes (arr : jsarray) :
  (forall j, array_get arr j = None) -> array_join arr = [].
Proof.
  unfold array_get, array_join. induction arr as [|x arr IH]; intros H;
    [reflexivity|].
  pose proof (H 0%nat) as H0. simpl in H0. subst x. simpl.
  apply IH. intros j. apply (H (S j)).
Qed.

(** An array that holds the characters of [x], one by one, and nothing
    beyond them joins to [x]. *)
Lemma array_join_chars (x : jsstring) :
  forall arr : jsarray,
    (forall j, array_get arr j
               = option_map (fun c => [c]) (nth_error x j)) ->
    array_join arr = x.
Proof.
  induction x as [|c x IH]; intros arr H.
  - apply array_join_holes. intros j. rewrite H. now destruct j.
  - destruct arr as [|a arr].
    + specialize (H 0%nat). discriminate H.
    + pose proof (H 0%nat) as H0. unfold array_get in H0. simpl in H0.
      subst a. unfold array_join. simpl. f_equal.
      apply IH. intros j. apply (H (S j)).
Qed.

Lemma app_position_nth (x : jsstring) (positions : list Z) :
  Forall (fun p => inside (List.length x) p = true) positions ->
  App.encodingAlgorithms.position x positions
  = map (fun p => nth (Z.to_nat p) x 0) positions.
Proof.
  induction positions as [|pos positions IH]; intros Hall; [reflexivity|].
  inversion Hall as [|? ? Hin Hrest]; subst.
  rewrite app_position_cons, IH by assumption.
  destruct (char_at_inside x pos Hin) as (c & Hc & ->).
  cbn [or_string falsy map app]. f_equal.
  symmetry. now apply nth_error_nth.
Qed.

Lemma existsb_position (positions : list Z) (j : nat) :
  Forall (fun p => 0 <= p) positions ->
  existsb (fun p => (j =? Z.to_nat p)%nat) positions = true
  <-> In (Z.of_nat j) positions.
Proof.
  intros Hall. rewrite existsb_exists. rewrite Forall_forall in Hall.
  split.
  - intros (p & Hp & E). apply Nat.eqb_eq in E. specialize (Hall p Hp).
    now replace (Z.of_nat j) with p by lia.
  - intros Hin. exists (Z.of_nat j). split; [assumption|].
    apply Nat.eqb_eq. lia.
Qed.

(** X22.  When the listed positions lie inside the string and reach each
    of its characters, position of the decoding table gives back the
    string that position of the encoding table rearranged. *)
Theorem X22_app_position_roundtrip (x : jsstring) (positions : list Z) :
  covers positions (List.length x) ->
  Z.of_nat (List.length x) <= 4294967295 ->
  App.decodingAlgorithms.position
    (App.encodingAlgorithms.position x positions) positions = x.
Proof.
  intros [Hin Hall] Hlen.
  assert (Hinside : Forall (fun p => inside (List.length x) p = true)
                      positions).
  { eapply Forall_impl; [|exact Hin]. intros p Hp. cbv beta in Hp.
    unfold inside. apply andb_true_iff. split; [apply Z.leb_le|apply Z.ltb_lt]; lia. }
  assert (Hidx : Forall (fun p => is_array_index p = true) positions).
  { eapply Forall_impl; [|exact Hin]. intros p Hp. cbv beta in Hp.
    unfold is_array_index. apply andb_true_iff. split; [apply Z.leb_le|apply Z.ltb_lt]; lia. }
  assert (Hnonneg : Forall (fun p => 0 <= p) positions)
    by (eapply Forall_impl; [|exact Hin]; intros p Hp; cbv beta in Hp; lia).
  rewrite app_position_nth by assumption.
  unfold App.decodingAlgorithms.position, split.
  apply array_join_chars. intros j.
  rewrite (position_forEach_get _ (char_at x)); trivial.
  - destruct (existsb _ positions) eqn:E.
    + apply existsb_position in E; [|assumption].
      rewrite Forall_forall in Hin. specialize (Hin _ E).
      unfold char_at. destruct (Z.ltb_spec (Z.of_nat j) 0); [lia|].
      now rewrite Nat2Z.id.
    + unfold array_get, new_Array. rewrite nth_repeat.
      destruct (nth_error x j) as [c|] eqn:Ej; [|reflexivity].
      exfalso. assert (Hj : (j < List.length x)%nat)
        by (apply nth_error_Some; congruence).
      apply Hall in Hj. apply (existsb_position _ _ Hnonneg) in Hj.
      congruence.
  - intros k p Hk. cbn [Nat.add].
    rewrite Forall_forall in Hinside.
    pose proof (Hinside p (nth_error_In _ _ Hk)) as Hp.
    destruct (char_at_inside x p Hp) as (c & Hc & ->).
    unfold char_at. destruct (Z.ltb_spec (Z.of_nat k) 0); [lia|].
    rewrite Nat2Z.id, nth_error_map, Hk. cbn [option_map].
    f_equal. f_equal. now apply nth_error_nth.
Qed.

(** The positions of the built-in formula of App.tsx on a string of five
    characters. *)
Lemma shuffle_covers : covers [3; 1; 4; 0; 2] (List.length (js "HELLO")).
Proof.
  split.
  - repeat constructor; simpl; lia.
  - intros j Hj. simpl in Hj.
    do 5 (destruct j as [|j]; [simpl; tauto|]). lia.
Defined.

Lemma X22_app_position_roundtrip_witness :
  (covers [3; 1; 4; 0; 2] (List.length (js "HELLO")) /\
   Z.of_nat (List.length (js "HELLO")) <= 4294967295) /\
  App.decodingAlgorithms.position
    (App.encodingAlgorithms.position (js "HELLO") [3; 1; 4; 0; 2])
    [3; 1; 4; 0; 2] = js "HELLO".
Proof.
  assert (Hl : Z.of_nat (List.length (js "HELLO")) <= 4294967295)
    by (simpl; lia).
  split; [split; [exact shuffle_covers|exact Hl]|].
  exact (X22_app_position_roundtrip (js "HELLO") [3; 1; 4; 0; 2]
           shuffle_covers Hl).
Defined.

(* ===================================================================== *)
(** ** ConfigurationContext.tsx: the formula collection and the history *)
(* ===================================================================== *)

Lemma find_filter_other {A : Type} (p q : A -> bool) (l : list A) :
  (forall x, p x = true -> q x = true) ->
  find p (filter q l) = find p l.
Proof.
  intros Hpq. induction l as [|x l IH]; [reflexivity|].
  cbn [filter find]. destruct (q x) eqn:Eq; cbn [find].
  - now rewrite IH.
  - destruct (p x) eqn:Ep; [|assumption].
    apply Hpq in Ep. congruence.
Qed.

Lemma find_filter_none {A : Type} (p q : A -> bool) (l : list A) :
  (forall x, q x = true -> p x = false) ->
  find p (filter q l) = None.
Proof.
  intros Hpq. induction l as [|x l IH]; [reflexivity|].
  cbn [filter]. destruct (q x) eqn:Eq; [|assumption].
  cbn [find]. now rewrite (Hpq x Eq).
Qed.

(** X23.  After deleteEncodingFormula of an id, getEncodingFormula finds
    nothing under that id, whatever number of formulas carried it, and
    finds under every other id what it found before. *)
Theorem X23_delete_then_get (savedFormulas : list EncodingFormula)
  (formulaId other : jsstring) :
  ConfigurationContext.getEncodingFormula
    (ConfigurationContext.deleteEncodingFormula savedFormulas formulaId)
    formulaId = None /\
  (other <> formulaId ->
   ConfigurationContext.getEncodingFormula
     (ConfigurationContext.deleteEncodingFormula savedFormulas formulaId)
     other
   = ConfigurationContext.getEncodingFormula savedFormulas other).
Proof.
  unfold ConfigurationContext.getEncodingFormula,
    ConfigurationContext.deleteEncodingFormula.
  split.
  - apply find_filter_none. intros f Hf. now apply negb_true_iff in Hf.
  - intros Hne. apply find_filter_other. intros f Hf.
    apply str_eqb_eq in Hf. apply negb_true_iff, str_eqb_neq. congruence.
Qed.

(** X24.  saveEncodingFormula never replaces: after it getEncodingFormula
    finds under an id the formula it found before, if there was one, and
    the saved formula only if the id was free and is the id of that
    formula. *)
Theorem X24_save_then_get (savedFormulas : list EncodingFormula)
  (formula : EncodingFormula) (formulaId : jsstring) :
  ConfigurationContext.getEncodingFormula
    (ConfigurationContext.saveEncodingFormula savedFormulas formula)
    formulaId
  = match ConfigurationContext.getEncodingFormula savedFormulas formulaId
    with
    | Some found => Some found
    | None => if str_eqb (Types.id formula) formulaId
              then Some formula else None
    end.
Proof.
  unfold ConfigurationContext.getEncodingFormula,
    ConfigurationContext.saveEncodingFormula.
  rewrite find_last. reflexivity.
Qed.

Lemma slice_last {A : Type} (l : list A) (n : Z) :
  0 < n ->
  slice l (- n) None = skipn (List.length l - Z.to_nat n) l.
Proof.
  intros Hn. unfold slice.
  destruct (Z.ltb_spec (- n) 0) as [Hneg|Hzero]; [|lia].
  replace (Z.to_nat (Z.max (Z.of_nat (List.length l) + - n) 0))
    with (List.length l - Z.to_nat n)%nat by lia.
  apply firstn_all2. rewrite length_skipn. lia.
Qed.

(** X25.  The history saveConfiguration stores has the new entry last,
    before it the newest nine of the old entries in their order, and so
    never more than ten entries. *)
Theorem X25_history_keeps_last_ten {A : Type} (configHistory : list A)
  (historyEntry : A) :
  ConfigurationContext.updatedHistory configHistory historyEntry
  = skipn (List.length configHistory - 9) configHistory ++ [historyEntry] /\
  (List.length
     (ConfigurationContext.updatedHistory configHistory historyEntry)
   <= 10)%nat.
Proof.
  unfold ConfigurationContext.updatedHistory.
  rewrite (slice_last _ 10) by lia.
  rewrite length_app. cbn [List.length].
  replace (List.length configHistory + 1 - Z.to_nat 10)%nat
    with (List.length configHistory - 9)%nat by lia.
  rewrite skipn_app.
  replace (List.length configHistory - 9 - List.length configHistory)%nat
    with 0%nat by lia.
  cbn [skipn]. split; [reflexivity|].
  rewrite length_app, length_skipn. cbn [List.length]. lia.
Qed.

(* ===================================================================== *)
(** ** ConfigurationContext.tsx: validateConfiguration *)
(* ===================================================================== *)

Lemma trimStart_blank (s : jsstring) :
  blank s = true -> ConfigurationContext.trimStart s = [].
Proof.
  unfold blank. induction s as [|c s IH]; [reflexivity|].
  cbn [forallb ConfigurationContext.trimStart].
  intros H. apply andb_true_iff in H as [Hc Hs]. rewrite Hc. now apply IH.
Qed.

Lemma trimStart_not_blank (s : jsstring) :
  blank s = false ->
  exists c rest, ConfigurationContext.trimStart s = c :: rest /\
                 ConfigurationContext.is_whitespace c = false.
Proof.
  unfold blank. induction s as [|c s IH]; [discriminate|].
  cbn [forallb ConfigurationContext.trimStart].
  destruct (ConfigurationContext.is_whitespace c) eqn:Ec.
  - simpl. apply IH.
  - intros _. now exists c, s.
Qed.

Lemma blank_rev (s : jsstring) : blank (rev s) = blank s.
Proof.
  unfold blank. destruct (forallb _ s) eqn:E.
  - rewrite forallb_forall in *. intros x Hx. apply E. now apply in_rev.
  - destruct (forallb _ (rev s)) eqn:E'; [|reflexivity].
    rewrite forallb_forall in E'.
    assert (forallb ConfigurationContext.is_whitespace s = true)
      by (apply forallb_forall; intros x Hx; apply E';
          rewrite <- in_rev; assumption).
    congruence.
Qed.

(** A string is trimmed to nothing exactly when it is blank. *)
Lemma falsy_trim (s : jsstring) :
  falsy (ConfigurationContext.trim s) = blank s.
Proof.
  unfold ConfigurationContext.trim. destruct (blank s) eqn:E.
  - now rewrite (trimStart_blank s E).
  - destruct (trimStart_not_blank s E) as (c & rest & -> & Hc).
    assert (Hb : blank (rev (c :: rest)) = false).
    { rewrite blank_rev. unfold blank. cbn [forallb]. now rewrite Hc. }
    destruct (trimStart_not_blank _ Hb) as (d & rest' & -> & _).
    cbn [rev]. now destruct (rev rest').
Qed.

Lemma mapping_errors_nil (mappings : list ConfigurationTypes.ColumnMapping) :
  forall (index : nat) (errs : list jsstring),
    ConfigurationContext.mapping_errors mappings index errs = [] <->
    errs = [] /\
    Forall (fun m => blank (ConfigurationTypes.sourceColumn m) = false /\
                     blank (ConfigurationTypes.destinationField m) = false)
      mappings.
Proof.
  induction mappings as [|m mappings IH]; intros index errs.
  - cbn. split; [intros ->; split; [reflexivity|constructor]|tauto].
  - cbn [ConfigurationContext.mapping_errors]. rewrite IH, !falsy_trim.
    destruct (blank (ConfigurationTypes.sourceColumn m)) eqn:Es;
      destruct (blank (ConfigurationTypes.destinationField m)) eqn:Ed.
    + split; [intros [H _]|intros [_ H]].
      * apply app_eq_nil in H as [_ H]. discriminate H.
      * inversion H as [|? ? [Hx _] _]. congruence.
    + split; [intros [H _]|intros [_ H]].
      * apply app_eq_nil in H as [_ H]. discriminate H.
      * inversion H as [|? ? [Hx _] _]. congruence.
    + split; [intros [H _]|intros [_ H]].
      * apply app_eq_nil in H as [_ H]. discriminate H.
      * inversion H as [|? ? [_ Hx] _]. congruence.
    + split.
      * intros [-> H]. split; [reflexivity|]. constructor; auto.
      * intros [-> H]. split; [reflexivity|]. now inversion H.
Qed.

(** X26.  validateConfiguration declares a configuration valid exactly
    when its name, connection string, table name, collection name and
    custom token are not blank, its formula has a non-empty id, and it has
    at least one column mapping, each with a source column and a
    destination field that are not blank.  The processing interval, the
    marks for encoding and the algorithm and parameters of the formula
    play no part. *)
Theorem X26_configuration_valid_iff
  (config : ConfigurationTypes.AppConfiguration) :
  ConfigurationTypes.isValid (ConfigurationContext.validateConfiguration config)
    = true
  <-> complete_configuration config.
Proof.
  unfold ConfigurationContext.validateConfiguration, complete_configuration.
  cbn [ConfigurationTypes.isValid].
  rewrite Nat.eqb_eq, length_zero_iff_nil, mapping_errors_nil.
  rewrite !push_if_nil, !falsy_trim, falsy_false, Nat.eqb_neq.
  rewrite length_zero_iff_nil.
  tauto.
Qed.

(* ===================================================================== *)
(** ** LoginPage.tsx: the passkey gate *)
(* ===================================================================== *)

Lemma stored_passkey_after_change (storage : object) (p now : jsstring) :
  obj_get
    (obj_set (obj_set storage (js "encoder_passkey") p)
       (js "encoder_passkey_changed") now)
    (js "encoder_passkey") = Some p.
Proof.
  rewrite obj_get_set.
  change (str_eqb (js "encoder_passkey_changed") (js "encoder_passkey"))
    with false.
  cbv iota. rewrite obj_get_set. now rewrite str_eqb_refl.
Qed.

(** One event changes the stored passkey only to a string of six or more
    characters. *)
Lemma step_stored_passkey (w : LoginPage.World) (e : LoginPage.Event) :
  obj_get (LoginPage.localStorage (LoginPage.step w e))
    (js "encoder_passkey")
  = obj_get (LoginPage.localStorage w) (js "encoder_passkey") \/
  exists p,
    obj_get (LoginPage.localStorage (LoginPage.step w e))
      (js "encoder_passkey") = Some p /\
    (6 <= List.length p)%nat.
Proof.
  destruct e; unfold LoginPage.step;
    try (destruct (LoginPage.isChangingPasskey (LoginPage.state w));
         try destruct (negb (LoginPage.isFirstTime (LoginPage.state w)));
         cbn; now left).
  - (* SubmitLogin *)
    destruct (LoginPage.isChangingPasskey (LoginPage.state w)); [now left|].
    unfold LoginPage.handleLogin.
    destruct (match obj_get _ _ with Some _ => _ | None => _ end);
      cbn; now left.
  - (* SubmitPasskeyChange *)
    destruct (LoginPage.isChangingPasskey (LoginPage.state w)); [|now left].
    unfold LoginPage.handlePasskeyChange.
    destruct (Nat.ltb_spec
                (List.length (LoginPage.newPasskey (LoginPage.state w))) 6)
      as [Hshort|Hlong]; [cbn; now left|].
    destruct (negb (str_eqb _ _)); [cbn; now left|].
    right. exists (LoginPage.newPasskey (LoginPage.state w)).
    cbn [LoginPage.localStorage].
    split; [apply stored_passkey_after_change|assumption].
Qed.

(** X27.  Whatever the user does on the login page, the passkey in the
    storage is afterwards the one that was there before or a string of at
    least six characters. *)
Theorem X27_stored_passkey_length (storage : object)
  (events : list LoginPage.Event) :
  obj_get
    (LoginPage.localStorage
       (LoginPage.run (LoginPage.mount storage) events))
    (js "encoder_passkey")
  = obj_get storage (js "encoder_passkey") \/
  exists p,
    obj_get
      (LoginPage.localStorage
         (LoginPage.run (LoginPage.mount storage) events))
      (js "encoder_passkey") = Some p /\
    (6 <= List.length p)%nat.
Proof.
  assert (Hgen : forall (evs : list LoginPage.Event) (w : LoginPage.World),
             (obj_get (LoginPage.localStorage w) (js "encoder_passkey")
              = obj_get storage (js "encoder_passkey") \/
              exists p,
                obj_get (LoginPage.localStorage w) (js "encoder_passkey")
                = Some p /\ (6 <= List.length p)%nat) ->
             obj_get (LoginPage.localStorage (LoginPage.run w evs))
               (js "encoder_passkey")
             = obj_get storage (js "encoder_passkey") \/
             exists p,
               obj_get (LoginPage.localStorage (LoginPage.run w evs))
                 (js "encoder_passkey") = Some p /\
               (6 <= List.length p)%nat).
  { induction evs as [|e evs IH]; intros w Hw; [exact Hw|].
    unfold LoginPage.run in *. cbn [fold_left]. apply IH.
    destruct (step_stored_passkey w e) as [Hsame|Hnew].
    - rewrite Hsame. exact Hw.
    - right. exact Hnew. }
  apply Hgen. left. unfold LoginPage.mount.
  destruct (no_string _); reflexivity.
Qed.

(** X28.  The passkey of the login page can be replaced without knowing
    it: from any content of the storage, choosing Change Passkey, typing a
    new passkey of at least six characters twice, submitting it and
    logging in with it stores the new passkey and ends with onLogin
    called with true. *)
Theorem X28_passkey_takeover (storage : object) (p now : jsstring) :
  (6 <= List.length p)%nat ->
  obj_get
    (LoginPage.localStorage
       (LoginPage.run (LoginPage.mount storage) (LoginPage.takeover p now)))
    (js "encoder_passkey") = Some p /\
  exists earlier,
    LoginPage.onLogin
      (LoginPage.run (LoginPage.mount storage) (LoginPage.takeover p now))
    = earlier ++ [true].
Proof.
  intros Hp. apply Nat.ltb_ge in Hp.
  unfold LoginPage.run, LoginPage.takeover, LoginPage.mount.
  destruct (no_string (obj_get storage (js "encoder_passkey")));
    cbn -[js obj_get obj_set str_eqb Nat.ltb];
    unfold LoginPage.handlePasskeyChange, LoginPage.with_state;
    cbn -[js obj_get obj_set str_eqb Nat.ltb];
    rewrite Hp, (str_eqb_refl p);
    cbn -[js obj_get obj_set str_eqb Nat.ltb];
    unfold LoginPage.handleLogin;
    cbn -[js obj_get obj_set str_eqb Nat.ltb];
    rewrite stored_passkey_after_change, (str_eqb_refl p);
    cbn -[js obj_get obj_set str_eqb Nat.ltb];
    (split; [apply stored_passkey_after_change|]).
  - now exists [true].
  - now exists [].
Qed.

Lemma X28_passkey_takeover_witness :
  (6 <= List.length (js "hunter2"))%nat /\
  obj_get
    (LoginPage.localStorage
       (LoginPage.run
          (LoginPage.mount [(js "encoder_passkey", js "correct horse")])
          (LoginPage.takeover (js "hunter2") (js "2026-01-01T00:00:00.000Z"))))
    (js "encoder_passkey") = Some (js "hunter2").
Proof.
  assert (H : (6 <= List.length (js "hunter2"))%nat) by (simpl; lia).
  split; [exact H|].
  exact (proj1 (X28_passkey_takeover
                  [(js "encoder_passkey", js "correct horse")]
                  (js "hunter2") (js "2026-01-01T00:00:00.000Z") H)).
Defined.

(** Before a passkey is set the passkey-change form stays on the page:
    an event other than its submission keeps the state of the first
    visit. *)
Lemma step_first_visit (storage : object) (w : LoginPage.World)
  (e : LoginPage.Event) :
  LoginPage.no_passkey_change e = true ->
  LoginPage.isChangingPasskey (LoginPage.state w) = true /\
  LoginPage.isFirstTime (LoginPage.state w) = true /\
  LoginPage.onLogin w = [] /\ LoginPage.localStorage w = storage ->
  LoginPage.isChangingPasskey (LoginPage.state (LoginPage.step w e)) = true /\
  LoginPage.isFirstTime (LoginPage.state (LoginPage.step w e)) = true /\
  LoginPage.onLogin (LoginPage.step w e) = [] /\
  LoginPage.localStorage (LoginPage.step w e) = storage.
Proof.
  intros He (Hc & Hf & Ho & Hs).
  destruct e; try discriminate He; unfold LoginPage.step;
    rewrite ?Hc, ?Hf; cbn; auto.
Qed.

(** X29.  On a first visit, when the storage holds no passkey, no sequence
    of events without a submission of the passkey-change form calls
    onLogin or touches the storage. *)
Theorem X29_no_login_before_setup (storage : object)
  (events : list LoginPage.Event) :
  no_string (obj_get storage (js "encoder_passkey")) = true ->
  forallb LoginPage.no_passkey_change events = true ->
  LoginPage.onLogin (LoginPage.run (LoginPage.mount storage) events) = [] /\
  LoginPage.localStorage (LoginPage.run (LoginPage.mount storage) events)
    = storage.
Proof.
  intros Hfresh Hev.
  assert (Hgen : forall (evs : list LoginPage.Event) (w : LoginPage.World),
             forallb LoginPage.no_passkey_change evs = true ->
             LoginPage.isChangingPasskey (LoginPage.state w) = true /\
             LoginPage.isFirstTime (LoginPage.state w) = true /\
             LoginPage.onLogin w = [] /\ LoginPage.localStorage w = storage ->
             LoginPage.onLogin (LoginPage.run w evs) = [] /\
             LoginPage.localStorage (LoginPage.run w evs) = storage).
  { induction evs as [|e evs IH]; intros w Hevs Hw.
    - cbn. tauto.
    - cbn [forallb] in Hevs. apply andb_true_iff in Hevs as [He Hevs].
      unfold LoginPage.run in *. cbn [fold_left].
      apply IH; [assumption|]. now apply step_first_visit. }
  apply Hgen; [assumption|].
  unfold LoginPage.mount. rewrite Hfresh. cbn. auto.
Qed.

Lemma X29_no_login_before_setup_witness :
  (no_string (obj_get [] (js "encoder_passkey")) = true /\
   forallb LoginPage.no_passkey_change
     [LoginPage.TypePasskey (js "guess"); LoginPage.SubmitLogin;
      LoginPage.ClickCancel] = true) /\
  LoginPage.onLogin
    (LoginPage.run (LoginPage.mount [])
       [LoginPage.TypePasskey (js "guess"); LoginPage.SubmitLogin;
        LoginPage.ClickCancel]) = [].
Proof.
  split; [split; reflexivity|].
  exact (proj1 (X29_no_login_before_setup []
                  [LoginPage.TypePasskey (js "guess"); LoginPage.SubmitLogin;
                   LoginPage.ClickCancel] eq_refl eq_refl)).
Defined.
